(** * Pitch-class sets and the Forte classification table

    A shallow embedding of [pitch_class_set.py],
    [forte_classification.py] and the set queries of
    [set_analysis.py].  Python integers are [Z], Python lists
    of integers are [list Z], Python strings are [string]; operations
    that can raise carry their exception in [result]; [Optional] values
    are [option]. *)

From Stdlib Require Import ZArith List Bool Lia String Ascii.
From Stdlib Require Import Sorting.Permutation Sorting.Sorted Sorting.Mergesort.
From Stdlib Require Import Structures.Orders.
Import ListNotations.

Local Open Scope string_scope.
Local Open Scope list_scope.
Local Open Scope Z_scope.

(** ** Python run-time model *)

Module Py.

Inductive exn : Type :=
| IndexError
| ValueError
| AttributeError.

Inductive result (A : Type) : Type :=
| Ok (a : A)
| Raise (e : exn).

Arguments Ok {A} a.
Arguments Raise {A} e.

Definition bind {A B : Type} (m : result A) (k : A -> result B) : result B :=
  match m with
  | Ok a => k a
  | Raise e => Raise e
  end.

(** [len(xs)] *)
Definition len {A : Type} (xs : list A) : Z := Z.of_nat (List.length xs).

(** [range(n)] *)
Definition range (n : Z) : list Z := map Z.of_nat (seq 0 (Z.to_nat n)).

(** The order [sorted] uses on integers, and the merge sort of the
    Standard Library over it. *)
Module ZOrder := OTF_to_TTLB BinInt.Z.
Module ZSort := Sort ZOrder.

(** [sorted(xs)] on a list of integers. *)
Definition sorted (xs : list Z) : list Z := ZSort.sort xs.

(** [list(set(xs))]: the distinct elements, in some order; every use
    in the program sorts the result at once. *)
Definition set_list (xs : list Z) : list Z := nodup Z.eq_dec xs.

(** [xs[n:]] and [xs[:n]] for [0 <= n]. *)
Definition slice_from {A : Type} (n : Z) (xs : list A) : list A := skipn (Z.to_nat n) xs.
Definition slice_to {A : Type} (n : Z) (xs : list A) : list A := firstn (Z.to_nat n) xs.

(** [xs == ys] on lists of integers. *)
Fixpoint list_eqb (xs ys : list Z) : bool :=
  match xs, ys with
  | [], [] => true
  | x :: xs', y :: ys' => (x =? y) && list_eqb xs' ys'
  | _, _ => false
  end.

(** [xs < ys] on lists of integers: the first differing position
    decides, and a proper prefix is smaller. *)
Fixpoint list_ltb (xs ys : list Z) : bool :=
  match xs, ys with
  | [], [] => false
  | [], _ :: _ => true
  | _ :: _, [] => false
  | x :: xs', y :: ys' =>
      if x =? y then list_ltb xs' ys' else x <? y
  end.

(** [min(xs)] on a list of lists: the first smallest item;
    [ValueError] on an empty argument. *)
Definition min_list (xs : list (list Z)) : result (list Z) :=
  match xs with
  | [] => Raise ValueError
  | x :: rest =>
      Ok (fold_left (fun best item => if list_ltb item best then item else best) rest x)
  end.

(** Position addressed by the subscript [i] in a list of length [n]:
    negative subscripts count from the end, anything else outside
    the list is an [IndexError]. *)
Definition index (n : nat) (i : Z) : option nat :=
  if (0 <=? i) && (i <? Z.of_nat n) then Some (Z.to_nat i)
  else if (- Z.of_nat n <=? i) && (i <? 0) then Some (Z.to_nat (i + Z.of_nat n))
  else None.

Fixpoint update_at (k : nat) (f : Z -> Z) (xs : list Z) : list Z :=
  match k, xs with
  | _, [] => []
  | O, x :: xs' => f x :: xs'
  | S k', x :: xs' => x :: update_at k' f xs'
  end.

(** [xs[i] += 1] *)
Definition incr_item (xs : list Z) (i : Z) : result (list Z) :=
  match index (List.length xs) i with
  | Some k => Ok (update_at k (fun v => v + 1) xs)
  | None => Raise IndexError
  end.

(** [sum(xs)] *)
Definition sum (xs : list Z) : Z := fold_left Z.add xs 0.

(** *** Strings *)

(** [s.split(sep)] for a one-character separator. *)
Fixpoint split (sep : ascii) (s : string) : list string :=
  match s with
  | EmptyString => [EmptyString]
  | String c rest =>
      if Ascii.eqb c sep then EmptyString :: split sep rest
      else match split sep rest with
           | [] => [String c EmptyString]
           | h :: t => String c h :: t
           end
  end.

(** White space as [int()] strips it (ASCII range). *)
Definition is_space (c : ascii) : bool :=
  let n := nat_of_ascii c in
  ((9 <=? n) && (n <=? 13) || (28 <=? n) && (n <=? 32))%nat.

Definition digit_of (c : ascii) : option Z :=
  let n := nat_of_ascii c in
  if ((48 <=? n) && (n <=? 57))%nat then Some (Z.of_nat n - 48) else None.

Fixpoint lstrip (s : string) : string :=
  match s with
  | String c rest => if is_space c then lstrip rest else s
  | EmptyString => EmptyString
  end.

Fixpoint rstrip (s : string) : string :=
  match s with
  | EmptyString => EmptyString
  | String c rest =>
      match rstrip rest with
      | EmptyString => if is_space c then EmptyString else String c EmptyString
      | r => String c r
      end
  end.

(** Decimal digits with single underscores allowed between digits.
    [acc] is the value read so far, [after_digit] tells whether the
    previous character was a digit. *)
Fixpoint digits (s : string) (acc : Z) (after_digit : bool) : option Z :=
  match s with
  | EmptyString => if after_digit then Some acc else None
  | String c rest =>
      match digit_of c with
      | Some d => digits rest (10 * acc + d) true
      | None =>
          if Ascii.eqb c "_"%char && after_digit then
            match rest with
            | String c' _ =>
                match digit_of c' with
                | Some _ => digits rest acc false
                | None => None
                end
            | EmptyString => None
            end
          else None
      end
  end.

(** [int(s)] in base ten; [None] stands for [ValueError]. *)
Definition int (s : string) : option Z :=
  match rstrip (lstrip s) with
  | String "+"%char rest => digits rest 0 false
  | String "-"%char rest => option_map Z.opp (digits rest 0 false)
  | body => digits body 0 false
  end.

End Py.

Import Py.

Notation "x <- m ;; k" := (bind m (fun x => k))
  (at level 61, m at next level, right associativity).

(** ** [pitch_class_set.py] *)

(** The two attributes of an instance.  [cardinality] is assigned once,
    by [__post_init__]. *)
Record PitchClassSet : Type := {
  pitch_classes : list Z;
  cardinality : Z
}.

(** [__post_init__]: reduce modulo 12, drop duplicates, sort. *)
Definition post_init (pcs : list Z) : list Z :=
  sorted (set_list (map (fun pc => pc mod 12) pcs)).

(** [PitchClassSet(pcs)]: the dataclass constructor followed by
    [__post_init__]. *)
Definition new (pcs : list Z) : PitchClassSet :=
  let normal := post_init pcs in
  {| pitch_classes := normal; cardinality := len normal |}.

(** [__eq__] between two instances: the stored lists are compared. *)
Definition eq_pcs (self other : PitchClassSet) : bool :=
  list_eqb (pitch_classes self) (pitch_classes other).

(** [__len__] *)
Definition len_pcs (self : PitchClassSet) : Z := cardinality self.

Definition transposition (self : PitchClassSet) (n : Z) : PitchClassSet :=
  let transposed_pcs := map (fun pc => (pc + n) mod 12) (pitch_classes self) in
  new transposed_pcs.

Definition inversion (self : PitchClassSet) (n : Z) : PitchClassSet :=
  let inverted_pcs := map (fun pc => (n - pc) mod 12) (pitch_classes self) in
  new inverted_pcs.

Definition rotation (self : PitchClassSet) (n : Z) : PitchClassSet :=
  match pitch_classes self with
  | [] => new []
  | _ :: _ =>
      let n := n mod len (pitch_classes self) in
      let rotated_pcs :=
        slice_from n (pitch_classes self) ++ slice_to n (pitch_classes self) in
      new rotated_pcs
  end.

(** [retrograde]: the instance is built by the constructor (so its
    [cardinality] is that of the normalised list) and its
    [pitch_classes] attribute is then overwritten. *)
Definition retrograde (self : PitchClassSet) : PitchClassSet :=
  match pitch_classes self with
  | [] => new []
  | _ :: _ =>
      let retrograde_pcs := rev (pitch_classes self) in
      let result := new retrograde_pcs in
      {| pitch_classes := retrograde_pcs; cardinality := cardinality result |}
  end.

Definition retrograde_inversion (self : PitchClassSet) (n : Z) : PitchClassSet :=
  let inverted := inversion self n in
  retrograde inverted.

Definition get_playback_order (self : PitchClassSet) : list Z :=
  pitch_classes self.

Definition prime_form (self : PitchClassSet) : result (list Z) :=
  match pitch_classes self with
  | [] => Ok []
  | _ :: _ =>
      let rotations :=
        map (fun i => pitch_classes (rotation self i))
            (range (len (pitch_classes self))) in
      let inverted := inversion self 0 in
      let inverted_rotations :=
        map (fun i => pitch_classes (rotation inverted i))
            (range (len (pitch_classes inverted))) in
      let candidates := rotations ++ inverted_rotations in
      min_list candidates
  end.

(** One pass of the inner loop of [interval_vector]: the element [a]
    at position [i] against the elements [rest] at the positions
    [i + 1 ..]. *)
Fixpoint interval_inner (a : Z) (rest : list Z) (interval_counts : list Z)
  : result (list Z) :=
  match rest with
  | [] => Ok interval_counts
  | b :: rest' =>
      let interval := Z.abs (a - b) in
      let interval_class := Z.min interval (12 - interval) in
      counts' <- incr_item interval_counts (interval_class - 1) ;;
      interval_inner a rest' counts'
  end.

(** The outer loop: every position [i] with the positions after it. *)
Fixpoint interval_outer (pcs : list Z) (interval_counts : list Z)
  : result (list Z) :=
  match pcs with
  | [] => Ok interval_counts
  | a :: rest =>
      counts' <- interval_inner a rest interval_counts ;;
      interval_outer rest counts'
  end.

Definition interval_vector (self : PitchClassSet) : result (list Z) :=
  if len (pitch_classes self) <? 2 then Ok [0; 0; 0; 0; 0; 0]
  else interval_outer (pitch_classes self) (repeat 0 6%nat).

(** ** [forte_classification.py] *)

Module ForteClassification.

Definition FORTE_TABLE : list (Z * list (list Z * string)) :=
  [ (1,
    [
      ([0], "1-1") ]);
    (2,
    [
      ([0; 1], "2-1"); ([0; 2], "2-2"); ([0; 3], "2-3"); ([0; 4], "2-4"); ([0; 5], "2-5");
      ([0; 6], "2-6") ]);
    (3,
    [
      ([0; 1; 2], "3-1"); ([0; 1; 3], "3-2"); ([0; 1; 4], "3-3"); ([0; 1; 5], "3-4");
      ([0; 1; 6], "3-5"); ([0; 2; 4], "3-6"); ([0; 2; 5], "3-7"); ([0; 2; 6], "3-8");
      ([0; 2; 7], "3-9"); ([0; 3; 6], "3-10"); ([0; 3; 7], "3-11"); ([0; 4; 7], "3-11");
      ([0; 4; 8], "3-12") ]);
    (4,
    [
      ([0; 1; 2; 3], "4-1"); ([0; 1; 2; 4], "4-2"); ([0; 1; 2; 5], "4-3");
      ([0; 1; 2; 6], "4-4"); ([0; 1; 2; 7], "4-5"); ([0; 1; 3; 4], "4-6");
      ([0; 1; 3; 5], "4-7"); ([0; 1; 3; 6], "4-8"); ([0; 1; 3; 7], "4-9");
      ([0; 1; 4; 5], "4-10"); ([0; 1; 4; 6], "4-11"); ([0; 1; 4; 7], "4-12");
      ([0; 1; 5; 6], "4-13"); ([0; 1; 5; 7], "4-14"); ([0; 1; 6; 7], "4-15");
      ([0; 2; 3; 5], "4-16"); ([0; 2; 3; 6], "4-17"); ([0; 2; 3; 7], "4-18");
      ([0; 2; 4; 6], "4-19"); ([0; 2; 4; 7], "4-20"); ([0; 2; 4; 8], "4-21");
      ([0; 2; 5; 7], "4-22"); ([0; 2; 5; 8], "4-23"); ([0; 2; 6; 8], "4-24");
      ([0; 3; 4; 7], "4-25"); ([0; 3; 5; 8], "4-26"); ([0; 3; 6; 9], "4-27");
      ([0; 4; 5; 8], "4-28"); ([0; 4; 6; 10], "4-29"); ([0; 2; 5; 9], "4-26");
      ([0; 1; 5; 8], "4-25") ]);
    (5,
    [
      ([0; 1; 2; 3; 4], "5-1"); ([0; 1; 2; 3; 5], "5-2"); ([0; 1; 2; 3; 6], "5-3");
      ([0; 1; 2; 3; 7], "5-4"); ([0; 1; 2; 4; 5], "5-5"); ([0; 1; 2; 4; 6], "5-6");
      ([0; 1; 2; 4; 7], "5-7"); ([0; 1; 2; 4; 8], "5-8"); ([0; 1; 2; 5; 6], "5-9");
      ([0; 1; 2; 5; 7], "5-10"); ([0; 1; 2; 5; 8], "5-11"); ([0; 1; 2; 6; 7], "5-12");
      ([0; 1; 2; 6; 8], "5-13"); ([0; 1; 2; 6; 9], "5-14"); ([0; 1; 3; 4; 5], "5-15");
      ([0; 1; 3; 4; 6], "5-16"); ([0; 1; 3; 4; 7], "5-17"); ([0; 1; 3; 4; 8], "5-18");
      ([0; 1; 3; 5; 6], "5-19"); ([0; 1; 3; 5; 7], "5-20"); ([0; 1; 3; 5; 8], "5-21");
      ([0; 1; 3; 6; 7], "5-22"); ([0; 1; 3; 6; 8], "5-23"); ([0; 1; 3; 6; 9], "5-24");
      ([0; 1; 4; 5; 6], "5-25"); ([0; 1; 4; 5; 7], "5-26"); ([0; 1; 4; 5; 8], "5-27");
      ([0; 1; 4; 6; 7], "5-28"); ([0; 1; 4; 6; 8], "5-29"); ([0; 1; 4; 6; 9], "5-30");
      ([0; 1; 5; 6; 7], "5-31"); ([0; 1; 5; 6; 8], "5-32"); ([0; 1; 5; 6; 9], "5-33");
      ([0; 2; 3; 4; 6], "5-34"); ([0; 2; 3; 4; 7], "5-35"); ([0; 2; 3; 5; 7], "5-36");
      ([0; 2; 3; 5; 8], "5-37"); ([0; 2; 4; 5; 8], "5-38") ]);
    (6,
    [
      ([0; 1; 2; 3; 4; 5], "6-1"); ([0; 1; 2; 3; 4; 6], "6-2");
      ([0; 1; 2; 3; 4; 7], "6-3"); ([0; 1; 2; 3; 5; 6], "6-4");
      ([0; 1; 2; 3; 5; 7], "6-5"); ([0; 1; 2; 3; 5; 8], "6-6");
      ([0; 1; 2; 3; 6; 7], "6-7"); ([0; 1; 2; 3; 6; 8], "6-8");
      ([0; 1; 2; 3; 6; 9], "6-9"); ([0; 1; 2; 4; 5; 6], "6-10");
      ([0; 1; 2; 4; 5; 7], "6-11"); ([0; 1; 2; 4; 5; 8], "6-12");
      ([0; 1; 2; 4; 6; 7], "6-13"); ([0; 1; 2; 4; 6; 8], "6-14");
      ([0; 1; 2; 4; 6; 9], "6-15"); ([0; 1; 2; 4; 7; 8], "6-16");
      ([0; 1; 2; 5; 6; 7], "6-17"); ([0; 1; 2; 5; 6; 8], "6-18");
      ([0; 1; 2; 5; 6; 9], "6-19"); ([0; 1; 2; 5; 7; 8], "6-20");
      ([0; 1; 2; 6; 7; 8], "6-21"); ([0; 1; 2; 6; 7; 9], "6-22");
      ([0; 1; 2; 6; 8; 10], "6-23"); ([0; 1; 3; 4; 5; 6], "6-24");
      ([0; 1; 3; 4; 5; 7], "6-25"); ([0; 1; 3; 4; 5; 8], "6-26");
      ([0; 1; 3; 4; 6; 7], "6-27"); ([0; 1; 3; 4; 6; 8], "6-28");
      ([0; 1; 3; 4; 6; 9], "6-29"); ([0; 1; 3; 4; 7; 8], "6-30");
      ([0; 1; 3; 5; 6; 7], "6-31"); ([0; 1; 3; 5; 6; 8], "6-32");
      ([0; 1; 3; 5; 6; 9], "6-33"); ([0; 1; 3; 5; 7; 8], "6-34");
      ([0; 1; 3; 6; 7; 8], "6-35"); ([0; 1; 3; 6; 7; 9], "6-36");
      ([0; 1; 3; 6; 8; 9], "6-37"); ([0; 1; 4; 5; 6; 7], "6-38");
      ([0; 1; 4; 5; 6; 8], "6-39"); ([0; 1; 4; 5; 6; 9], "6-40");
      ([0; 1; 4; 5; 7; 8], "6-41"); ([0; 1; 4; 6; 7; 8], "6-42");
      ([0; 1; 4; 6; 7; 9], "6-43"); ([0; 1; 4; 6; 8; 9], "6-44");
      ([0; 1; 5; 6; 7; 8], "6-45"); ([0; 1; 5; 6; 7; 9], "6-46");
      ([0; 1; 5; 6; 8; 9], "6-47"); ([0; 2; 3; 4; 5; 7], "6-48");
      ([0; 2; 3; 4; 6; 8], "6-49"); ([0; 2; 3; 5; 6; 8], "6-50");
      ([0; 2; 4; 6; 8; 10], "6-35") ]);
    (7,
    [
      ([0; 1; 2; 3; 4; 5; 6], "7-1"); ([0; 1; 2; 3; 4; 5; 7], "7-2");
      ([0; 1; 2; 3; 4; 5; 8], "7-3"); ([0; 1; 2; 3; 4; 6; 7], "7-4");
      ([0; 1; 2; 3; 4; 6; 8], "7-5"); ([0; 1; 2; 3; 4; 6; 9], "7-6");
      ([0; 1; 2; 3; 5; 6; 7], "7-7"); ([0; 1; 2; 3; 5; 6; 8], "7-8");
      ([0; 1; 2; 3; 5; 6; 9], "7-9"); ([0; 1; 2; 3; 5; 7; 8], "7-10");
      ([0; 1; 2; 3; 6; 7; 8], "7-11"); ([0; 1; 2; 3; 6; 7; 9], "7-12");
      ([0; 1; 2; 3; 6; 8; 9], "7-13"); ([0; 1; 2; 4; 5; 6; 7], "7-14");
      ([0; 1; 2; 4; 5; 6; 8], "7-15"); ([0; 1; 2; 4; 5; 6; 9], "7-16");
      ([0; 1; 2; 4; 5; 7; 8], "7-17"); ([0; 1; 2; 4; 6; 7; 8], "7-18");
      ([0; 1; 2; 4; 6; 7; 9], "7-19"); ([0; 1; 2; 4; 6; 8; 9], "7-20");
      ([0; 1; 2; 5; 6; 7; 8], "7-21"); ([0; 1; 2; 5; 6; 7; 9], "7-22");
      ([0; 1; 2; 5; 6; 8; 9], "7-23"); ([0; 1; 2; 6; 7; 8; 9], "7-24");
      ([0; 1; 3; 4; 5; 6; 7], "7-25"); ([0; 1; 3; 4; 5; 6; 8], "7-26");
      ([0; 1; 3; 4; 5; 6; 9], "7-27"); ([0; 1; 3; 4; 5; 7; 8], "7-28");
      ([0; 1; 3; 4; 6; 7; 8], "7-29"); ([0; 1; 3; 4; 6; 7; 9], "7-30");
      ([0; 1; 3; 5; 6; 7; 8], "7-31"); ([0; 1; 3; 5; 6; 7; 9], "7-32");
      ([0; 1; 4; 5; 6; 7; 8], "7-33"); ([0; 1; 4; 5; 6; 7; 9], "7-34");
      ([0; 1; 4; 5; 6; 8; 9], "7-35"); ([0; 1; 5; 6; 7; 8; 9], "7-36");
      ([0; 2; 3; 4; 5; 6; 8], "7-37"); ([0; 2; 3; 4; 5; 7; 9], "7-38") ]);
    (8,
    [
      ([0; 1; 2; 3; 4; 5; 6; 7], "8-1"); ([0; 1; 2; 3; 4; 5; 6; 8], "8-2");
      ([0; 1; 2; 3; 4; 5; 6; 9], "8-3"); ([0; 1; 2; 3; 4; 5; 7; 8], "8-4");
      ([0; 1; 2; 3; 4; 5; 7; 9], "8-5"); ([0; 1; 2; 3; 4; 6; 7; 8], "8-6");
      ([0; 1; 2; 3; 4; 6; 7; 9], "8-7"); ([0; 1; 2; 3; 4; 6; 8; 9], "8-8");
      ([0; 1; 2; 3; 5; 6; 7; 8], "8-9"); ([0; 1; 2; 3; 5; 6; 7; 9], "8-10");
      ([0; 1; 2; 3; 5; 6; 8; 9], "8-11"); ([0; 1; 2; 3; 6; 7; 8; 9], "8-12");
      ([0; 1; 2; 4; 5; 6; 7; 8], "8-13"); ([0; 1; 2; 4; 5; 6; 7; 9], "8-14");
      ([0; 1; 2; 4; 5; 6; 8; 9], "8-15"); ([0; 1; 2; 4; 6; 7; 8; 9], "8-16");
      ([0; 1; 2; 5; 6; 7; 8; 9], "8-17"); ([0; 1; 3; 4; 5; 6; 7; 8], "8-18");
      ([0; 1; 3; 4; 5; 6; 7; 9], "8-19"); ([0; 1; 3; 4; 5; 6; 8; 9], "8-20");
      ([0; 1; 3; 4; 6; 7; 8; 9], "8-21"); ([0; 1; 3; 5; 6; 7; 8; 9], "8-22");
      ([0; 1; 4; 5; 6; 7; 8; 9], "8-23"); ([0; 2; 3; 4; 5; 6; 7; 8], "8-24");
      ([0; 2; 3; 4; 5; 6; 7; 9], "8-25"); ([0; 2; 3; 4; 5; 6; 8; 9], "8-26");
      ([0; 2; 3; 4; 5; 7; 8; 9], "8-27"); ([0; 2; 3; 4; 6; 7; 8; 9], "8-28");
      ([0; 2; 4; 5; 6; 7; 8; 9], "8-29") ]);
    (9,
    [
      ([0; 1; 2; 3; 4; 5; 6; 7; 8], "9-1"); ([0; 1; 2; 3; 4; 5; 6; 7; 9], "9-2");
      ([0; 1; 2; 3; 4; 5; 6; 8; 9], "9-3"); ([0; 1; 2; 3; 4; 5; 7; 8; 9], "9-4");
      ([0; 1; 2; 3; 4; 6; 7; 8; 9], "9-5"); ([0; 1; 2; 3; 5; 6; 7; 8; 9], "9-6");
      ([0; 1; 2; 4; 5; 6; 7; 8; 9], "9-7"); ([0; 1; 3; 4; 5; 6; 7; 8; 9], "9-8");
      ([0; 2; 3; 4; 5; 6; 7; 8; 9], "9-9"); ([0; 1; 2; 3; 4; 5; 6; 7; 10], "9-10");
      ([0; 1; 2; 3; 4; 5; 6; 8; 10], "9-11"); ([0; 1; 2; 3; 4; 5; 7; 8; 10], "9-12") ]);
    (10,
    [
      ([0; 1; 2; 3; 4; 5; 6; 7; 8; 9], "10-1"); ([0; 1; 2; 3; 4; 5; 6; 7; 8; 10], "10-2");
      ([0; 1; 2; 3; 4; 5; 6; 7; 9; 10], "10-3"); ([0; 1; 2; 3; 4; 5; 6; 8; 9; 10], "10-4");
      ([0; 1; 2; 3; 4; 5; 7; 8; 9; 10], "10-5"); ([0; 1; 2; 3; 4; 6; 7; 8; 9; 10], "10-6") ]);
    (11,
    [
      ([0; 1; 2; 3; 4; 5; 6; 7; 8; 9; 10], "11-1") ]);
    (12,
    [
      ([0; 1; 2; 3; 4; 5; 6; 7; 8; 9; 10; 11], "12-1") ]) ].

(** [k in d] and [d[k]] on the outer dictionary. *)
Fixpoint table_get (d : list (Z * list (list Z * string))) (k : Z)
  : option (list (list Z * string)) :=
  match d with
  | [] => None
  | (k', v) :: d' => if k' =? k then Some v else table_get d' k
  end.

(** [d.get(key)] on one cardinality's dictionary. *)
Fixpoint dict_get (d : list (list Z * string)) (key : list Z) : option string :=
  match d with
  | [] => None
  | (k, v) :: d' => if list_eqb k key then Some v else dict_get d' key
  end.

Definition get_forte_number (pitch_class_set : PitchClassSet)
  : result (option string) :=
  let cardinality := len_pcs pitch_class_set in
  match table_get FORTE_TABLE cardinality with
  | None => Ok None
  | Some entries =>
      prime <- prime_form pitch_class_set ;;
      Ok (dict_get entries prime)
  end.

(** The search loop of [get_set_from_forte_number] over [d.items()]. *)
Fixpoint find_label (items : list (list Z * string)) (forte_number : string)
  : option PitchClassSet :=
  match items with
  | [] => None
  | (prime, forte_num) :: items' =>
      if String.eqb forte_num forte_number then Some (new prime)
      else find_label items' forte_number
  end.

(** The [try] block catches the [ValueError] of a wrong number of
    parts and of [int()], hence the plain [option]. *)
Definition get_set_from_forte_number (forte_number : string)
  : option PitchClassSet :=
  match split "-"%char forte_number with
  | [cardinality_str; number_str] =>
      match int cardinality_str, int number_str with
      | Some cardinality, Some _ =>
          match table_get FORTE_TABLE cardinality with
          | None => None
          | Some items => find_label items forte_number
          end
      | _, _ => None
      end
  | _ => None
  end.

(** The loop of [get_z_partner] over the entries of one cardinality. *)
Fixpoint z_scan (items : list (list Z * string)) (forte_number : string)
    (target_iv : list Z) : result (option string) :=
  match items with
  | [] => Ok None
  | (prime, forte_num) :: items' =>
      if String.eqb forte_num forte_number then z_scan items' forte_number target_iv
      else
        iv <- interval_vector (new prime) ;;
        if list_eqb iv target_iv then Ok (Some forte_num)
        else z_scan items' forte_number target_iv
  end.

Definition get_z_partner (pitch_class_set : PitchClassSet)
  : result (option string) :=
  forte <- get_forte_number pitch_class_set ;;
  match forte with
  | None => Ok None
  | Some forte_number =>
      target_iv <- interval_vector pitch_class_set ;;
      let cardinality := len_pcs pitch_class_set in
      match table_get FORTE_TABLE cardinality with
      | None => Ok None
      | Some items => z_scan items forte_number target_iv
      end
  end.

End ForteClassification.

Import ForteClassification.

(** ** [pitch_class_set.py]: the remaining methods *)

(** [x in xs] on a list of integers. *)
Definition mem (x : Z) (xs : list Z) : bool := existsb (Z.eqb x) xs.

(** [itertools.combinations(xs, r)]: the [r]-element selections of
    [xs], positions increasing, in lexicographic order of positions. *)
Fixpoint combinations {A : Type} (xs : list A) (r : nat) : list (list A) :=
  match r with
  | O => [[]]
  | S r' =>
      match xs with
      | [] => []
      | x :: rest => map (cons x) (combinations rest r') ++ combinations rest r
      end
  end.

Definition contains (self : PitchClassSet) (pitch_class : Z) : bool :=
  mem (pitch_class mod 12) (pitch_classes self).

Definition add_pitch_class (self : PitchClassSet) (pitch_class : Z) : PitchClassSet :=
  let new_pcs := pitch_classes self ++ [pitch_class mod 12] in
  new new_pcs.

Definition remove_pitch_class (self : PitchClassSet) (pitch_class : Z)
  : PitchClassSet :=
  let new_pcs :=
    filter (fun pc => negb (pc =? pitch_class mod 12)) (pitch_classes self) in
  new new_pcs.

Definition is_subset_of (self other : PitchClassSet) : bool :=
  forallb (fun pc => mem pc (pitch_classes other)) (pitch_classes self).

Definition is_superset_of (self other : PitchClassSet) : bool :=
  is_subset_of other self.

Definition intersection (self other : PitchClassSet) : PitchClassSet :=
  let common_pcs :=
    filter (fun pc => mem pc (pitch_classes other)) (pitch_classes self) in
  new common_pcs.

Definition union (self other : PitchClassSet) : PitchClassSet :=
  let all_pcs := pitch_classes self ++ pitch_classes other in
  new all_pcs.

Definition complement (self : PitchClassSet) : PitchClassSet :=
  let all_pcs := range 12 in
  let complement_pcs :=
    filter (fun pc => negb (mem pc (pitch_classes self))) all_pcs in
  new complement_pcs.

(** The dictionary [similarity_relation] returns, one field per key. *)
Record similarity : Type := {
  R : bool;
  R0 : bool;
  R1 : bool;
  R2 : bool
}.

Definition similarity_relation (self other : PitchClassSet) : result similarity :=
  iv_self <- interval_vector self ;;
  iv_other <- interval_vector other ;;
  let same_interval_vector := list_eqb iv_self iv_other in
  let same_cardinality := cardinality self =? cardinality other in
  let r0 := same_interval_vector && same_cardinality in
  let complementary_cardinality := cardinality self + cardinality other =? 12 in
  let r1 := same_interval_vector && complementary_cardinality in
  let cardinality_diff_1 := Z.abs (cardinality self - cardinality other) =? 1 in
  let r2 := same_interval_vector && cardinality_diff_1 in
  Ok {| R := same_interval_vector; R0 := r0; R1 := r1; R2 := r2 |}.

Definition find_subsets (self : PitchClassSet) (subset_size : Z)
  : list PitchClassSet :=
  if (subset_size >? len (pitch_classes self)) || (subset_size <? 0) then []
  else map new (combinations (pitch_classes self) (Z.to_nat subset_size)).

Definition find_supersets (self : PitchClassSet) (superset_size : Z)
  : list PitchClassSet :=
  if (superset_size <? len (pitch_classes self)) || (superset_size >? 12) then []
  else
    let remaining_pcs :=
      filter (fun pc => negb (mem pc (pitch_classes self))) (range 12) in
    map (fun combo => new (pitch_classes self ++ combo))
        (combinations remaining_pcs
           (Z.to_nat (superset_size - len (pitch_classes self)))).

(** The table built into [PitchClassSet.forte_number]. *)
Definition forte_map : list (list Z * string) :=
  [ ([0; 1; 2], "3-1"); ([0; 1; 3], "3-2"); ([0; 1; 4], "3-3");
    ([0; 1; 5], "3-4"); ([0; 1; 6], "3-5"); ([0; 2; 4], "3-6");
    ([0; 2; 5], "3-7"); ([0; 2; 6], "3-8"); ([0; 2; 7], "3-9");
    ([0; 3; 6], "3-10"); ([0; 3; 7], "3-11"); ([0; 4; 8], "3-12") ].

Definition forte_number (self : PitchClassSet) : result (option string) :=
  prime <- prime_form self ;;
  Ok (dict_get forte_map prime).

Definition generate_all_sets (cardinality : Z) : list PitchClassSet :=
  if (cardinality <? 1) || (cardinality >? 12) then []
  else map new (combinations (range 12) (Z.to_nat cardinality)).

(** ** [forte_classification.py]: the remaining queries *)

Definition get_all_sets_by_cardinality (cardinality : Z)
  : list (PitchClassSet * string) :=
  match table_get FORTE_TABLE cardinality with
  | None => []
  | Some items => map (fun e => (new (fst e), snd e)) items
  end.

(** The inner loop of [find_similar_sets], over one cardinality. *)
Fixpoint similar_scan (items : list (list Z * string)) (forte_number : string)
    (target_iv : list Z) (similar_sets : list string) : result (list string) :=
  match items with
  | [] => Ok similar_sets
  | (prime, forte_num) :: items' =>
      iv <- interval_vector (new prime) ;;
      if list_eqb iv target_iv && negb (String.eqb forte_num forte_number)
      then similar_scan items' forte_number target_iv (similar_sets ++ [forte_num])
      else similar_scan items' forte_number target_iv similar_sets
  end.

(** The outer loop, over the cardinalities of the table. *)
Fixpoint similar_tables (tables : list (Z * list (list Z * string)))
    (forte_number : string) (target_iv : list Z) (similar_sets : list string)
  : result (list string) :=
  match tables with
  | [] => Ok similar_sets
  | (_, items) :: tables' =>
      found <- similar_scan items forte_number target_iv similar_sets ;;
      similar_tables tables' forte_number target_iv found
  end.

Definition find_similar_sets (forte_number : string) : result (list string) :=
  match get_set_from_forte_number forte_number with
  | None => Ok []
  | Some target_pcs =>
      target_iv <- interval_vector target_pcs ;;
      similar_tables FORTE_TABLE forte_number target_iv []
  end.

(** ** [set_analysis.py] *)

Definition find_common_subsets (sets : list PitchClassSet) (subset_size : Z)
  : list PitchClassSet :=
  match sets with
  | [] => []
  | first :: others =>
      let all_subsets := find_subsets first subset_size in
      filter (fun subset => forallb (fun s => is_subset_of subset s) others)
             all_subsets
  end.

Definition find_common_supersets (sets : list PitchClassSet) (superset_size : Z)
  : list PitchClassSet :=
  match sets with
  | [] => []
  | first :: others =>
      let all_supersets := find_supersets first superset_size in
      filter (fun superset => forallb (fun s => is_subset_of s superset) others)
             all_supersets
  end.

(** The loop of [generate_sets_by_forte_number] that removes
    duplicates; [seen] is the set of tuples met so far. *)
Fixpoint unique_loop (related_sets : list PitchClassSet) (seen : list (list Z))
    (unique_sets : list PitchClassSet) : list PitchClassSet :=
  match related_sets with
  | [] => unique_sets
  | pcs :: rest =>
      let pcs_tuple := pitch_classes pcs in
      if existsb (list_eqb pcs_tuple) seen then unique_loop rest seen unique_sets
      else unique_loop rest (pcs_tuple :: seen) (unique_sets ++ [pcs])
  end.

Definition generate_sets_by_forte_number (forte_number : string)
  : list PitchClassSet :=
  match get_set_from_forte_number forte_number with
  | None => []
  | Some base_set =>
      let related_sets :=
        map (transposition base_set) (range 12)
        ++ map (inversion base_set) (range 12) in
      unique_loop related_sets [] []
  end.

Definition generate_aggregate_sets (cardinality : Z) : list PitchClassSet :=
  if (cardinality <? 1) || (cardinality >? 11) then []
  else
    map fst
      (filter (fun entry : PitchClassSet * string =>
                 let pcs := fst entry in
                 let union := union pcs (complement pcs) in
                 len_pcs union =? 12)
              (get_all_sets_by_cardinality cardinality)).

(** ** Instances the program can build

    Every method returns either a freshly constructed set or, for
    [retrograde] and [retrograde_inversion], a constructed set whose
    list was overwritten with the reversed one. *)

Inductive instance : PitchClassSet -> Prop :=
| instance_new (pcs : list Z) : instance (new pcs)
| instance_retrograde (p : PitchClassSet) : instance p -> instance (retrograde p).

Definition pitch_class (x : Z) : Prop := 0 <= x < 12.

Record well_formed (p : PitchClassSet) : Prop := {
  wf_range : Forall pitch_class (pitch_classes p);
  wf_nodup : NoDup (pitch_classes p);
  wf_card : cardinality p = len (pitch_classes p)
}.

(** ** Vocabulary of the statements *)

(** The interval class of two pitch classes, as [interval_vector]
    computes it. *)
Definition interval_class (a b : Z) : Z :=
  Z.min (Z.abs (a - b)) (12 - Z.abs (a - b)).

(** The pairs of interval class [k]: those [a] forms with the elements
    after it, and those of a whole list. *)
Definition class_count (k a : Z) (rest : list Z) : Z :=
  len (filter (fun b => interval_class a b =? k) rest).

Fixpoint pair_count (k : Z) (pcs : list Z) : Z :=
  match pcs with
  | [] => 0
  | a :: rest => class_count k a rest + pair_count k rest
  end.

(** A cardinality's entries give no label to two keys. *)
Definition injective_labels (items : list (list Z * string)) : Prop :=
  forall k1 k2 label, In (k1, label) items -> In (k2, label) items -> k1 = k2.

Definition injective_labelsb (items : list (list Z * string)) : bool :=
  forallb (fun e1 =>
    forallb (fun e2 =>
      implb (String.eqb (snd e1) (snd e2)) (list_eqb (fst e1) (fst e2)))
      items) items.

(** Equality of instances, attribute by attribute. *)
Definition same_instance (p q : PitchClassSet) : bool :=
  list_eqb (pitch_classes p) (pitch_classes q) && (cardinality p =? cardinality q).

Definition same_result (r1 r2 : option PitchClassSet) : bool :=
  match r1, r2 with
  | Some p, Some q => same_instance p q
  | None, None => true
  | _, _ => false
  end.

(** The step of [min]: keep the current item unless the next one is
    smaller. *)
Definition smaller (best item : list Z) : list Z :=
  if list_ltb item best then item else best.

(** The expression
    [get_set_from_forte_number(get_forte_number(pcs)).prime_form()]:
    a [None] from [get_forte_number] reaches [forte_number.split],
    and a [None] from [get_set_from_forte_number] reaches
    [.prime_form()]; either is an [AttributeError], which the [try]
    block does not catch. *)
Definition classification_round_trip (pcs : PitchClassSet) : result (list Z) :=
  forte <- get_forte_number pcs ;;
  match forte with
  | None => Raise AttributeError
  | Some forte_number =>
      match get_set_from_forte_number forte_number with
      | None => Raise AttributeError
      | Some found => prime_form found
      end
  end.

(** [q] is a transposition or an inversion of [p]. *)
Definition related_by_T_or_I (p q : PitchClassSet) : Prop :=
  exists n, eq_pcs (transposition p n) q = true \/ eq_pcs (inversion p n) q = true.

(** ** Facts about the run-time model *)

Section Sorting.

Lemma sorted_perm (xs : list Z) : Permutation xs (sorted xs).
Proof. apply ZSort.Permuted_sort. Qed.

Lemma sorted_le (xs : list Z) : StronglySorted Z.le (sorted xs).
Proof.
  assert (H : StronglySorted (fun x y => is_true (x <=? y)) (sorted xs)).
  { apply ZSort.StronglySorted_sort.
    intros x y z Hxy Hyz. unfold is_true in *.
    apply Z.leb_le in Hxy, Hyz. apply Z.leb_le. lia. }
  induction H as [| x l Hl IH Hx]; constructor; auto.
  eapply Forall_impl; [| exact Hx].
  intros y Hy. now apply Z.leb_le.
Qed.

(** A sorted list is determined by the elements it holds. *)
Lemma sorted_unique (xs ys : list Z) :
  StronglySorted Z.le xs -> StronglySorted Z.le ys ->
  Permutation xs ys -> xs = ys.
Proof.
  intros Hxs. revert ys.
  induction Hxs as [| x xs Hxs IH Hx]; intros ys Hys Hp.
  - now apply Permutation_nil in Hp.
  - destruct Hys as [| y ys Hys Hy].
    + symmetry in Hp. now apply Permutation_nil in Hp.
    + assert (Hxy : x = y).
      { assert (Hin1 : In x (y :: ys)) by (eapply Permutation_in; [exact Hp | now left]).
        assert (Hin2 : In y (x :: xs))
          by (eapply Permutation_in; [symmetry; exact Hp | now left]).
        rewrite Forall_forall in Hx, Hy.
        destruct Hin1 as [-> | Hin1]; [reflexivity |].
        destruct Hin2 as [-> | Hin2]; [reflexivity |].
        specialize (Hx _ Hin2). specialize (Hy _ Hin1). lia. }
      subst y. f_equal. apply IH; [assumption |].
      now apply Permutation_cons_inv in Hp.
Qed.

Lemma sorted_of_perm (xs ys : list Z) :
  Permutation xs ys -> sorted xs = sorted ys.
Proof.
  intros Hp. apply sorted_unique; try apply sorted_le.
  rewrite <- (sorted_perm xs), <- (sorted_perm ys). exact Hp.
Qed.

Lemma sorted_fixed (xs : list Z) :
  StronglySorted Z.le xs -> sorted xs = xs.
Proof.
  intros H. apply sorted_unique; [apply sorted_le | exact H |].
  symmetry. apply sorted_perm.
Qed.

End Sorting.

Section Normalisation.

Lemma map_mod_fixed (xs : list Z) :
  Forall pitch_class xs -> map (fun pc => pc mod 12) xs = xs.
Proof.
  induction 1 as [| x xs Hx _ IH]; simpl; [reflexivity |].
  rewrite IH. f_equal. apply Z.mod_small. exact Hx.
Qed.

Lemma post_init_perm (pcs : list Z) :
  Permutation (set_list (map (fun pc => pc mod 12) pcs)) (post_init pcs).
Proof. apply sorted_perm. Qed.

Lemma post_init_In (pcs : list Z) (x : Z) :
  In x (post_init pcs) <-> In x (map (fun pc => pc mod 12) pcs).
Proof.
  split; intros H.
  - apply (Permutation_in _ (Permutation_sym (post_init_perm pcs))) in H.
    unfold set_list in H. now apply nodup_In in H.
  - apply (Permutation_in _ (post_init_perm pcs)).
    unfold set_list. now apply nodup_In.
Qed.

Lemma post_init_range (pcs : list Z) : Forall pitch_class (post_init pcs).
Proof.
  apply Forall_forall. intros x Hx. apply post_init_In in Hx.
  apply in_map_iff in Hx. destruct Hx as [y [<- _]].
  unfold pitch_class. apply Z.mod_pos_bound. lia.
Qed.

Lemma post_init_nodup (pcs : list Z) : NoDup (post_init pcs).
Proof.
  eapply Permutation_NoDup; [apply post_init_perm |].
  apply NoDup_nodup.
Qed.

Lemma post_init_sorted (pcs : list Z) : StronglySorted Z.le (post_init pcs).
Proof. apply sorted_le. Qed.

(** Normalising a list of distinct pitch classes only sorts it. *)
Lemma post_init_distinct (pcs : list Z) :
  Forall pitch_class pcs -> NoDup pcs -> post_init pcs = sorted pcs.
Proof.
  intros Hr Hn. unfold post_init, set_list.
  rewrite (map_mod_fixed _ Hr). now rewrite nodup_fixed_point.
Qed.

Lemma post_init_idem (pcs : list Z) : post_init (post_init pcs) = post_init pcs.
Proof.
  rewrite post_init_distinct.
  - apply sorted_fixed, post_init_sorted.
  - apply post_init_range.
  - apply post_init_nodup.
Qed.

Lemma new_well_formed (pcs : list Z) : well_formed (new pcs).
Proof.
  constructor; simpl.
  - apply post_init_range.
  - apply post_init_nodup.
  - reflexivity.
Qed.

Lemma instance_well_formed (p : PitchClassSet) : instance p -> well_formed p.
Proof.
  induction 1 as [pcs | p _ IH].
  - apply new_well_formed.
  - destruct IH as [Hr Hn Hc]. unfold retrograde.
    destruct (pitch_classes p) as [| x xs] eqn:E; [apply new_well_formed |].
    assert (Hr' : Forall pitch_class (rev (x :: xs))).
    { apply Forall_forall. intros y Hy. apply in_rev in Hy.
      rewrite Forall_forall in Hr. now apply Hr. }
    assert (Hn' : NoDup (rev (x :: xs))).
    { eapply Permutation_NoDup; [apply Permutation_rev | exact Hn]. }
    constructor; cbn [pitch_classes cardinality new]; try assumption.
    rewrite (post_init_distinct _ Hr' Hn'). unfold len. f_equal.
    symmetry. apply Permutation_length, sorted_perm.
Qed.

End Normalisation.

(** ** The interval vector as a count of pairs *)

Section IntervalCounts.

Lemma fold_add_shift (xs : list Z) (a : Z) : fold_left Z.add xs a = a + sum xs.
Proof.
  unfold sum. revert a.
  induction xs as [| x xs IH]; intros a; simpl; [lia |].
  rewrite (IH (a + x)), (IH x). lia.
Qed.

Lemma sum_cons (x : Z) (xs : list Z) : sum (x :: xs) = x + sum xs.
Proof. unfold sum at 1. simpl. apply fold_add_shift. Qed.

Lemma update_at_length (k : nat) (f : Z -> Z) (xs : list Z) :
  List.length (update_at k f xs) = List.length xs.
Proof.
  revert k. induction xs as [| x xs IH]; intros [| k]; simpl; auto.
Qed.

Lemma update_at_sum (k : nat) (xs : list Z) :
  (k < List.length xs)%nat ->
  sum (update_at k (fun v => v + 1) xs) = sum xs + 1.
Proof.
  revert k. induction xs as [| x xs IH]; intros [| k] Hk; simpl in *; try lia.
  - rewrite !sum_cons. lia.
  - rewrite !sum_cons, IH; lia.
Qed.

Lemma update_at_nth (k j : nat) (xs : list Z) :
  (k < List.length xs)%nat ->
  nth j (update_at k (fun v => v + 1) xs) 0 =
  nth j xs 0 + (if Nat.eqb j k then 1 else 0).
Proof.
  revert k j. induction xs as [| x xs IH]; intros [| k] [| j] Hk; simpl in *;
    try lia.
  apply IH. lia.
Qed.

Lemma index_in_bounds (n : nat) (i : Z) (k : nat) :
  index n i = Some k -> (k < n)%nat.
Proof.
  unfold index.
  destruct ((0 <=? i) && (i <? Z.of_nat n)) eqn:E1.
  - intros [= <-]. apply andb_prop in E1. lia.
  - destruct ((- Z.of_nat n <=? i) && (i <? 0)) eqn:E2; [| discriminate].
    intros [= <-]. apply andb_prop in E2. lia.
Qed.

(** The increment succeeds on every subscript a six-element list
    accepts, the negative ones included. *)
Lemma incr_item_sum (counts : list Z) (i : Z) :
  List.length counts = 6%nat -> -6 <= i < 6 ->
  exists counts', incr_item counts i = Ok counts'
    /\ List.length counts' = 6%nat /\ sum counts' = sum counts + 1.
Proof.
  intros Hlen Hi. unfold incr_item.
  destruct (index (List.length counts) i) as [k |] eqn:E.
  - apply index_in_bounds in E. exists (update_at k (fun v => v + 1) counts).
    repeat split.
    + now rewrite update_at_length.
    + now apply update_at_sum.
  - exfalso. unfold index in E. rewrite Hlen in E.
    change (Z.of_nat 6) with 6 in E.
    destruct ((0 <=? i) && (i <? 6)) eqn:E1; [discriminate |].
    destruct ((- (6) <=? i) && (i <? 0)) eqn:E2; [discriminate |].
    apply andb_false_iff in E1, E2. lia.
Qed.

Lemma interval_class_bounds (a b : Z) :
  pitch_class a -> pitch_class b -> 0 <= interval_class a b <= 6.
Proof. unfold pitch_class, interval_class. lia. Qed.

Lemma interval_inner_sum (a : Z) (rest counts : list Z) :
  pitch_class a -> Forall pitch_class rest -> List.length counts = 6%nat ->
  exists counts', interval_inner a rest counts = Ok counts'
    /\ List.length counts' = 6%nat /\ sum counts' = sum counts + len rest.
Proof.
  intros Ha Hrest. revert counts.
  induction Hrest as [| b rest Hb _ IH]; intros counts Hlen.
  - exists counts. unfold len. simpl. repeat split; auto; lia.
  - pose proof (interval_class_bounds a b Ha Hb) as Hic.
    destruct (incr_item_sum counts (interval_class a b - 1) Hlen ltac:(lia))
      as [c1 [E1 [L1 S1]]].
    destruct (IH c1 L1) as [c2 [E2 [L2 S2]]].
    exists c2. cbn [interval_inner]. fold (interval_class a b).
    rewrite E1. cbn [bind]. rewrite E2. repeat split; auto.
    rewrite S2, S1. unfold len. cbn [List.length]. lia.
Qed.

Lemma interval_outer_sum (pcs counts : list Z) :
  Forall pitch_class pcs -> List.length counts = 6%nat ->
  exists counts', interval_outer pcs counts = Ok counts'
    /\ List.length counts' = 6%nat
    /\ 2 * sum counts' = 2 * sum counts + len pcs * (len pcs - 1).
Proof.
  intros Hpcs. revert counts.
  induction Hpcs as [| a rest Ha Hrest IH]; intros counts Hlen.
  - exists counts. unfold len. simpl. repeat split; auto; lia.
  - destruct (interval_inner_sum a rest counts Ha Hrest Hlen) as [c1 [E1 [L1 S1]]].
    destruct (IH c1 L1) as [c2 [E2 [L2 S2]]].
    exists c2. cbn [interval_outer]. rewrite E1. cbn [bind]. rewrite E2.
    repeat split; auto.
    rewrite S2, S1. unfold len. cbn [List.length]. lia.
Qed.

(** The early return of [interval_vector] agrees with the loops. *)
Lemma interval_vector_loops (p : PitchClassSet) :
  interval_vector p = interval_outer (pitch_classes p) (repeat 0 6%nat).
Proof.
  unfold interval_vector.
  destruct (pitch_classes p) as [| a [| b rest]]; try reflexivity.
  unfold len. cbn [List.length].
  destruct (Z.ltb_spec (Z.of_nat (S (S (List.length rest)))) 2); [lia | reflexivity].
Qed.

End IntervalCounts.

(** C10. For every instance the program can build, [interval_vector]
    returns a vector whose entries sum to the number of unordered pairs
    of elements, [cardinality * (cardinality - 1) / 2]; the product is
    even, so the division is exact. *)
Theorem interval_vector_sum (p : PitchClassSet) :
  instance p ->
  exists v, interval_vector p = Ok v
    /\ sum v = cardinality p * (cardinality p - 1) / 2.
Proof.
  intros Hp. destruct (instance_well_formed p Hp) as [Hr _ Hc].
  destruct (interval_outer_sum (pitch_classes p) (repeat 0 6%nat) Hr eq_refl)
    as [v [E [_ S]]].
  exists v. split; [now rewrite interval_vector_loops |].
  rewrite Hc. change (sum (repeat 0 6%nat)) with 0 in S.
  apply Z.div_unique_exact; lia.
Qed.

Lemma interval_vector_sum_witness :
  instance (retrograde (new [7; 0; 16; 4]))
  /\ exists v, interval_vector (retrograde (new [7; 0; 16; 4])) = Ok v
       /\ sum v = 3 * (3 - 1) / 2.
Proof.
  assert (H : instance (retrograde (new [7; 0; 16; 4])))
    by apply instance_retrograde, instance_new.
  split; [exact H |].
  apply (interval_vector_sum (retrograde (new [7; 0; 16; 4])) H).
Defined.

(** *** Entry by entry: each bucket counts the pairs of its class *)

Section PairCounts.

Lemma class_count_cons (k a b : Z) (rest : list Z) :
  class_count k a (b :: rest) =
  (if interval_class a b =? k then 1 else 0) + class_count k a rest.
Proof.
  unfold class_count, len. cbn [filter].
  destruct (interval_class a b =? k); cbn [List.length]; lia.
Qed.

Lemma incr_item_nth (counts : list Z) (i : Z) :
  List.length counts = 6%nat -> 0 <= i < 6 ->
  exists counts', incr_item counts i = Ok counts'
    /\ List.length counts' = 6%nat
    /\ forall j, nth j counts' 0 =
                 nth j counts 0 + (if Z.of_nat j =? i then 1 else 0).
Proof.
  intros Hlen Hi. unfold incr_item, index. rewrite Hlen.
  change (Z.of_nat 6) with 6.
  replace ((0 <=? i) && (i <? 6)) with true by (symmetry; apply andb_true_iff; lia).
  exists (update_at (Z.to_nat i) (fun v => v + 1) counts). repeat split.
  - now rewrite update_at_length.
  - intros j. rewrite update_at_nth by lia.
    destruct (Nat.eqb_spec j (Z.to_nat i)), (Z.eqb_spec (Z.of_nat j) i); lia.
Qed.

Lemma interval_class_positive (a b : Z) :
  pitch_class a -> pitch_class b -> a <> b -> 1 <= interval_class a b <= 6.
Proof. unfold pitch_class, interval_class. lia. Qed.

Lemma interval_inner_nth (a : Z) (rest counts : list Z) :
  pitch_class a -> Forall pitch_class rest -> ~ In a rest ->
  List.length counts = 6%nat ->
  exists counts', interval_inner a rest counts = Ok counts'
    /\ List.length counts' = 6%nat
    /\ forall j, nth j counts' 0 =
                 nth j counts 0 + class_count (Z.of_nat j + 1) a rest.
Proof.
  intros Ha Hrest. revert counts.
  induction Hrest as [| b rest Hb _ IH]; intros counts Hnin Hlen.
  - exists counts. repeat split; auto. intros j.
    unfold class_count, len. simpl. lia.
  - assert (Hab : a <> b) by (intros ->; apply Hnin; now left).
    pose proof (interval_class_positive a b Ha Hb Hab) as Hic.
    destruct (incr_item_nth counts (interval_class a b - 1) Hlen ltac:(lia))
      as [c1 [E1 [L1 N1]]].
    destruct (IH c1 ltac:(intros H; apply Hnin; now right) L1) as [c2 [E2 [L2 N2]]].
    exists c2. cbn [interval_inner]. fold (interval_class a b).
    rewrite E1. cbn [bind]. rewrite E2. repeat split; auto.
    intros j. rewrite N2, N1, class_count_cons.
    destruct (Z.eqb_spec (Z.of_nat j) (interval_class a b - 1)),
             (Z.eqb_spec (interval_class a b) (Z.of_nat j + 1)); lia.
Qed.

Lemma interval_outer_nth (pcs counts : list Z) :
  Forall pitch_class pcs -> NoDup pcs -> List.length counts = 6%nat ->
  exists counts', interval_outer pcs counts = Ok counts'
    /\ List.length counts' = 6%nat
    /\ forall j, nth j counts' 0 =
                 nth j counts 0 + pair_count (Z.of_nat j + 1) pcs.
Proof.
  intros Hpcs. revert counts.
  induction Hpcs as [| a rest Ha Hrest IH]; intros counts Hnd Hlen.
  - exists counts. repeat split; auto. intros j. simpl. lia.
  - inversion Hnd as [| ? ? Hnin Hnd']; subst.
    destruct (interval_inner_nth a rest counts Ha Hrest Hnin Hlen)
      as [c1 [E1 [L1 N1]]].
    destruct (IH c1 Hnd' L1) as [c2 [E2 [L2 N2]]].
    exists c2. cbn [interval_outer]. rewrite E1. cbn [bind]. rewrite E2.
    repeat split; auto.
    intros j. rewrite N2, N1. cbn [pair_count]. lia.
Qed.

(** Two lists of distinct pitch classes with the same pair counts
    have the same interval vector. *)
Lemma interval_outer_ext (xs ys : list Z) :
  Forall pitch_class xs -> NoDup xs ->
  Forall pitch_class ys -> NoDup ys ->
  (forall k, pair_count k xs = pair_count k ys) ->
  interval_outer xs (repeat 0 6%nat) = interval_outer ys (repeat 0 6%nat).
Proof.
  intros Hrx Hnx Hry Hny Hk.
  destruct (interval_outer_nth xs (repeat 0 6%nat) Hrx Hnx eq_refl) as [cx [Ex [Lx Nx]]].
  destruct (interval_outer_nth ys (repeat 0 6%nat) Hry Hny eq_refl) as [cy [Ey [Ly Ny]]].
  rewrite Ex, Ey. f_equal.
  apply (nth_ext cx cy 0 0); [congruence |].
  intros j _. now rewrite Nx, Ny, Hk.
Qed.

Lemma interval_class_sym (a b : Z) : interval_class a b = interval_class b a.
Proof. unfold interval_class. lia. Qed.

Lemma class_count_perm (k a : Z) (xs ys : list Z) :
  Permutation xs ys -> class_count k a xs = class_count k a ys.
Proof.
  induction 1 as [| x xs ys _ IH | x y xs | xs ys zs _ IH1 _ IH2].
  - reflexivity.
  - rewrite !class_count_cons. lia.
  - rewrite !class_count_cons. lia.
  - congruence.
Qed.

Lemma pair_count_perm (k : Z) (xs ys : list Z) :
  Permutation xs ys -> pair_count k xs = pair_count k ys.
Proof.
  induction 1 as [| x xs ys Hp IH | x y xs | xs ys zs _ IH1 _ IH2].
  - reflexivity.
  - cbn [pair_count]. rewrite IH, (class_count_perm k x xs ys Hp). reflexivity.
  - cbn [pair_count]. rewrite !class_count_cons.
    rewrite (interval_class_sym x y). lia.
  - congruence.
Qed.

Lemma class_count_map (f : Z -> Z) (k a : Z) (rest : list Z) :
  (forall b, In b rest -> interval_class (f a) (f b) = interval_class a b) ->
  class_count k (f a) (map f rest) = class_count k a rest.
Proof.
  induction rest as [| b rest IH]; intros H; [reflexivity |].
  cbn [map]. rewrite !class_count_cons, IH.
  - rewrite H by now left. reflexivity.
  - intros c Hc. apply H. now right.
Qed.

Lemma pair_count_map (f : Z -> Z) (k : Z) (pcs : list Z) :
  (forall a b, In a pcs -> In b pcs ->
               interval_class (f a) (f b) = interval_class a b) ->
  pair_count k (map f pcs) = pair_count k pcs.
Proof.
  induction pcs as [| a rest IH]; intros H; [reflexivity |].
  cbn [map pair_count]. rewrite class_count_map, IH.
  - reflexivity.
  - intros x y Hx Hy. apply H; now right.
  - intros b Hb. apply H; [now left | now right].
Qed.

End PairCounts.

(** ** Transposition and inversion preserve interval classes *)

Section Invariance.

Lemma transpose_pitch_class (n a : Z) : pitch_class ((a + n) mod 12).
Proof. unfold pitch_class. apply Z.mod_pos_bound. lia. Qed.

Lemma invert_pitch_class (n a : Z) : pitch_class ((n - a) mod 12).
Proof. unfold pitch_class. apply Z.mod_pos_bound. lia. Qed.

Lemma transpose_interval_class (n a b : Z) :
  pitch_class a -> pitch_class b ->
  interval_class ((a + n) mod 12) ((b + n) mod 12) = interval_class a b.
Proof.
  unfold pitch_class, interval_class. intros Ha Hb.
  pose proof (Z.div_mod (a + n) 12 ltac:(lia)) as Ea.
  pose proof (Z.div_mod (b + n) 12 ltac:(lia)) as Eb.
  pose proof (Z.mod_pos_bound (a + n) 12 ltac:(lia)) as Ba.
  pose proof (Z.mod_pos_bound (b + n) 12 ltac:(lia)) as Bb.
  lia.
Qed.

Lemma invert_interval_class (n a b : Z) :
  pitch_class a -> pitch_class b ->
  interval_class ((n - a) mod 12) ((n - b) mod 12) = interval_class a b.
Proof.
  unfold pitch_class, interval_class. intros Ha Hb.
  pose proof (Z.div_mod (n - a) 12 ltac:(lia)) as Ea.
  pose proof (Z.div_mod (n - b) 12 ltac:(lia)) as Eb.
  pose proof (Z.mod_pos_bound (n - a) 12 ltac:(lia)) as Ba.
  pose proof (Z.mod_pos_bound (n - b) 12 ltac:(lia)) as Bb.
  lia.
Qed.

Variable f : Z -> Z.
Hypothesis f_range : forall a, pitch_class (f a).
Hypothesis f_class :
  forall a b, pitch_class a -> pitch_class b ->
              interval_class (f a) (f b) = interval_class a b.

Lemma class_preserving_injective (a b : Z) :
  pitch_class a -> pitch_class b -> f a = f b -> a = b.
Proof.
  intros Ha Hb E. pose proof (f_class a b Ha Hb) as H.
  rewrite E in H.
  destruct (Z.eq_dec a b) as [-> | Hab]; [reflexivity |].
  pose proof (interval_class_positive a b Ha Hb Hab).
  unfold interval_class in H at 1. lia.
Qed.

Lemma map_nodup (pcs : list Z) :
  Forall pitch_class pcs -> NoDup pcs -> NoDup (map f pcs).
Proof.
  intros Hr Hn. apply NoDup_map_NoDup_ForallPairs; [| exact Hn].
  intros a b Ha Hb. rewrite Forall_forall in Hr.
  apply class_preserving_injective; auto.
Qed.

Lemma map_range (pcs : list Z) : Forall pitch_class (map f pcs).
Proof.
  apply Forall_forall. intros y Hy. apply in_map_iff in Hy.
  destruct Hy as [x [<- _]]. apply f_range.
Qed.

(** A set rebuilt from the images of its elements keeps its
    interval vector. *)
Lemma new_map_interval_vector (p : PitchClassSet) :
  well_formed p ->
  interval_vector (new (map f (pitch_classes p))) = interval_vector p.
Proof.
  intros [Hr Hn _]. rewrite !interval_vector_loops. cbn [new pitch_classes].
  pose proof (map_range (pitch_classes p)) as Hr'.
  pose proof (map_nodup _ Hr Hn) as Hn'.
  rewrite (post_init_distinct _ Hr' Hn').
  apply interval_outer_ext; auto.
  - apply Forall_forall. intros x Hx.
    apply (Permutation_in _ (Permutation_sym (sorted_perm _))) in Hx.
    rewrite Forall_forall in Hr'. now apply Hr'.
  - eapply Permutation_NoDup; [apply sorted_perm | exact Hn'].
  - intros k. rewrite <- (pair_count_perm k _ _ (sorted_perm _)).
    apply pair_count_map. intros a b Ha Hb.
    rewrite Forall_forall in Hr. apply f_class; auto.
Qed.

End Invariance.

Lemma interval_vector_transposition (p : PitchClassSet) (n : Z) :
  well_formed p -> interval_vector (transposition p n) = interval_vector p.
Proof.
  intros Hp. unfold transposition.
  apply (new_map_interval_vector (fun pc => (pc + n) mod 12)); auto.
  - intros a. apply transpose_pitch_class.
  - intros a b. apply transpose_interval_class.
Qed.

Lemma interval_vector_inversion (p : PitchClassSet) (n : Z) :
  well_formed p -> interval_vector (inversion p n) = interval_vector p.
Proof.
  intros Hp. unfold inversion.
  apply (new_map_interval_vector (fun pc => (n - pc) mod 12)); auto.
  - intros a. apply invert_pitch_class.
  - intros a b. apply invert_interval_class.
Qed.

Lemma interval_vector_total (p : PitchClassSet) :
  well_formed p -> exists v, interval_vector p = Ok v /\ List.length v = 6%nat.
Proof.
  intros [Hr _ _].
  destruct (interval_outer_sum (pitch_classes p) (repeat 0 6%nat) Hr eq_refl)
    as [v [E [L _]]].
  exists v. now rewrite interval_vector_loops.
Qed.

(** C8. For every set built from a list of integers and every integer
    [n], [interval_vector] returns a six-entry vector, and the
    transposition by [n] and the inversion around [n] return that same
    vector. *)
Theorem interval_vector_invariant (pcs : list Z) (n : Z) :
  exists v, interval_vector (new pcs) = Ok v
    /\ interval_vector (transposition (new pcs) n) = Ok v
    /\ interval_vector (inversion (new pcs) n) = Ok v.
Proof.
  pose proof (new_well_formed pcs) as Hp.
  destruct (interval_vector_total (new pcs) Hp) as [v [E _]].
  exists v. repeat split.
  - exact E.
  - now rewrite interval_vector_transposition.
  - now rewrite interval_vector_inversion.
Qed.

(** ** The classification table *)

Section Table.

Lemma list_eqb_eq (xs ys : list Z) : list_eqb xs ys = true <-> xs = ys.
Proof.
  revert ys. induction xs as [| x xs IH]; intros [| y ys]; simpl;
    try (split; [discriminate | discriminate || congruence]); try tauto.
  rewrite andb_true_iff, Z.eqb_eq, IH. split.
  - intros [-> ->]. reflexivity.
  - intros [= -> ->]. auto.
Qed.

Lemma same_instance_eq (p q : PitchClassSet) : same_instance p q = true -> p = q.
Proof.
  destruct p as [l1 c1], q as [l2 c2]. unfold same_instance. simpl.
  rewrite andb_true_iff, list_eqb_eq, Z.eqb_eq. intros [-> ->]. reflexivity.
Qed.

Lemma same_result_eq (r1 r2 : option PitchClassSet) :
  same_result r1 r2 = true -> r1 = r2.
Proof.
  destruct r1 as [p |], r2 as [q |]; simpl; try discriminate; auto.
  intros H. f_equal. now apply same_instance_eq.
Qed.

Lemma table_get_In (d : list (Z * list (list Z * string))) (k : Z)
    (items : list (list Z * string)) :
  table_get d k = Some items -> In (k, items) d.
Proof.
  induction d as [| [k' v] d IH]; simpl; [discriminate |].
  destruct (Z.eqb_spec k' k) as [-> | _].
  - intros [= ->]. now left.
  - intros H. right. now apply IH.
Qed.

Lemma injective_labelsb_spec (items : list (list Z * string)) :
  injective_labelsb items = true <-> injective_labels items.
Proof.
  unfold injective_labelsb, injective_labels. rewrite forallb_forall. split.
  - intros H k1 k2 label H1 H2.
    specialize (H _ H1). rewrite forallb_forall in H. specialize (H _ H2).
    simpl in H. rewrite String.eqb_refl in H. simpl in H.
    now apply list_eqb_eq.
  - intros H [k1 l1] H1. apply forallb_forall. intros [k2 l2] H2. simpl.
    destruct (String.eqb_spec l1 l2) as [-> | _]; [| reflexivity].
    simpl. apply list_eqb_eq. eapply H; eassumption.
Qed.

(** The search returns the key of the first entry that carries the
    label. *)
Lemma find_label_first (pre post : list (list Z * string)) (prime : list Z)
    (label : string) :
  (forall e, In e pre -> snd e <> label) ->
  find_label (pre ++ (prime, label) :: post) label = Some (new prime).
Proof.
  induction pre as [| [k l] pre IH]; intros H; simpl.
  - now rewrite String.eqb_refl.
  - destruct (String.eqb_spec l label) as [E | _].
    + exfalso. apply (H (k, l)); [now left | exact E].
    + apply IH. intros e He. apply H. now right.
Qed.

(** Every label of the table parses, selects its own cardinality and
    is then searched for in that cardinality's entries. *)
Lemma table_labels_resolve :
  forallb (fun ct : Z * list (list Z * string) =>
    forallb (fun e : list Z * string =>
      same_result (get_set_from_forte_number (snd e))
                  (find_label (snd ct) (snd e)))
      (snd ct)) FORTE_TABLE = true.
Proof. vm_compute. reflexivity. Qed.

Lemma table_injectivity :
  forallb (fun ct : Z * list (list Z * string) =>
    Bool.eqb (injective_labelsb (snd ct))
             (negb ((fst ct =? 3) || (fst ct =? 4) || (fst ct =? 6))))
    FORTE_TABLE = true.
Proof. vm_compute. reflexivity. Qed.

End Table.

(** C9. [get_set_from_forte_number] is a function of the label, and for
    a label of the table it returns the set built from the first key, in
    the table's insertion order, that carries the label: the label sits
    at [prime] and at no entry before it.  In particular ["3-11"]
    resolves to [PitchClassSet([0, 3, 7])], which is not
    [PitchClassSet([0, 4, 7])]; likewise for the other labels that occur
    twice. *)
Theorem get_set_from_forte_number_first :
  (forall (c : Z) (items pre post : list (list Z * string))
          (prime : list Z) (label : string),
      table_get FORTE_TABLE c = Some items ->
      items = pre ++ (prime, label) :: post ->
      (forall e, In e pre -> snd e <> label) ->
      get_set_from_forte_number label = Some (new prime))
  /\ get_set_from_forte_number "3-11" = Some (new [0; 3; 7])
  /\ get_set_from_forte_number "3-11" <> Some (new [0; 4; 7])
  /\ get_set_from_forte_number "4-25" = Some (new [0; 3; 4; 7])
  /\ get_set_from_forte_number "4-26" = Some (new [0; 3; 5; 8])
  /\ get_set_from_forte_number "6-35" = Some (new [0; 1; 3; 6; 7; 8]).
Proof.
  split; [| repeat split; try reflexivity; discriminate].
  intros c items pre post prime label Hget Hitems Hpre.
  apply table_get_In in Hget.
  pose proof table_labels_resolve as H.
  rewrite forallb_forall in H. specialize (H _ Hget). cbn [snd] in H.
  rewrite forallb_forall in H.
  assert (Hin : In (prime, label) items) by (subst items; apply in_elt).
  specialize (H _ Hin). cbn [snd] in H. apply same_result_eq in H.
  rewrite H. subst items. now apply find_label_first.
Qed.

Lemma get_set_from_forte_number_first_witness :
  get_set_from_forte_number "3-11" = Some (new [0; 3; 7]).
Proof.
  apply (proj1 get_set_from_forte_number_first 3
           [([0; 1; 2], "3-1"); ([0; 1; 3], "3-2"); ([0; 1; 4], "3-3");
            ([0; 1; 5], "3-4"); ([0; 1; 6], "3-5"); ([0; 2; 4], "3-6");
            ([0; 2; 5], "3-7"); ([0; 2; 6], "3-8"); ([0; 2; 7], "3-9");
            ([0; 3; 6], "3-10"); ([0; 3; 7], "3-11"); ([0; 4; 7], "3-11");
            ([0; 4; 8], "3-12")]
           [([0; 1; 2], "3-1"); ([0; 1; 3], "3-2"); ([0; 1; 4], "3-3");
            ([0; 1; 5], "3-4"); ([0; 1; 6], "3-5"); ([0; 2; 4], "3-6");
            ([0; 2; 5], "3-7"); ([0; 2; 6], "3-8"); ([0; 2; 7], "3-9");
            ([0; 3; 6], "3-10")]
           [([0; 4; 7], "3-11"); ([0; 4; 8], "3-12")]).
  - reflexivity.
  - reflexivity.
  - intros e He. simpl in He.
    repeat (destruct He as [<- | He]; [discriminate |]). contradiction.
Defined.

(** The dictionary literals repeat no key, so listing their entries in
    source order is their insertion order. *)
Lemma table_keys_distinct :
  forallb (fun ct : Z * list (list Z * string) =>
    forallb (fun e : list Z * string =>
      Nat.eqb (List.length (filter (fun e' => list_eqb (fst e') (fst e)) (snd ct))) 1)
      (snd ct)
    && Nat.eqb (List.length (filter (fun ct' : Z * list (list Z * string) =>
                                        fst ct' =? fst ct) FORTE_TABLE)) 1)
    FORTE_TABLE = true.
Proof. vm_compute. reflexivity. Qed.

(** C7, as the table has it.  A label is shared by two distinct keys
    exactly at the cardinalities 3, 4 and 6; at every other cardinality
    the mapping from keys to labels is injective. *)
Theorem duplicate_labels_cardinalities (c : Z) (items : list (list Z * string)) :
  table_get FORTE_TABLE c = Some items ->
  (injective_labels items <-> c <> 3 /\ c <> 4 /\ c <> 6).
Proof.
  intros Hget. apply table_get_In in Hget.
  pose proof table_injectivity as H.
  rewrite forallb_forall in H. specialize (H _ Hget). cbn [fst snd] in H.
  apply Bool.eqb_prop in H.
  rewrite <- injective_labelsb_spec, H, negb_true_iff, !orb_false_iff, !Z.eqb_neq.
  tauto.
Qed.

Lemma duplicate_labels_cardinalities_witness :
  table_get FORTE_TABLE 2 =
    Some [([0; 1], "2-1"); ([0; 2], "2-2"); ([0; 3], "2-3");
          ([0; 4], "2-4"); ([0; 5], "2-5"); ([0; 6], "2-6")]
  /\ (injective_labels
        [([0; 1], "2-1"); ([0; 2], "2-2"); ([0; 3], "2-3");
         ([0; 4], "2-4"); ([0; 5], "2-5"); ([0; 6], "2-6")]
      <-> 2 <> 3 /\ 2 <> 4 /\ 2 <> 6).
Proof.
  split; [reflexivity |].
  apply (duplicate_labels_cardinalities 2). reflexivity.
Defined.

(** C7, as the claim words it, fails: cardinality 3 is neither 4 nor 6,
    and its entries [(0, 3, 7)] and [(0, 4, 7)] are both labelled
    ["3-11"]. *)
Lemma duplicate_labels_only_4_6_fails :
  ~ (forall (c : Z) (items : list (list Z * string)),
        table_get FORTE_TABLE c = Some items ->
        c <> 4 -> c <> 6 -> injective_labels items).
Proof.
  intros H.
  specialize (H 3 _ eq_refl ltac:(lia) ltac:(lia) [0; 3; 7] [0; 4; 7] "3-11").
  assert (E : [0; 3; 7] = [0; 4; 7]) by (apply H; simpl; tauto).
  discriminate E.
Qed.

(** ** What [rotation] and [prime_form] compute *)

Section Rotation.

(** The constructor called at the end of [rotation] sorts the rotated
    list again. *)
Lemma rotation_sorted (p : PitchClassSet) (n : Z) :
  well_formed p -> pitch_classes (rotation p n) = sorted (pitch_classes p).
Proof.
  intros [Hr Hn _]. unfold rotation.
  destruct (pitch_classes p) as [| x xs] eqn:E; [reflexivity |].
  cbn [new pitch_classes]. unfold slice_from, slice_to.
  set (k := Z.to_nat (n mod len (x :: xs))).
  assert (Hp : Permutation (x :: xs) (skipn k (x :: xs) ++ firstn k (x :: xs))).
  { rewrite <- (firstn_skipn k (x :: xs)) at 1. apply Permutation_app_comm. }
  rewrite post_init_distinct.
  - symmetry. now apply sorted_of_perm.
  - apply Forall_forall. intros y Hy.
    apply (Permutation_in _ (Permutation_sym Hp)) in Hy.
    rewrite Forall_forall in Hr. now apply Hr.
  - eapply Permutation_NoDup; eassumption.
Qed.

Lemma rotation_of_new (pcs : list Z) (n : Z) :
  pitch_classes (rotation (new pcs) n) = pitch_classes (new pcs).
Proof.
  rewrite rotation_sorted by apply new_well_formed.
  apply sorted_fixed. cbn [new pitch_classes]. apply post_init_sorted.
Qed.

End Rotation.

Section PrimeForm.

Lemma list_ltb_irrefl (xs : list Z) : list_ltb xs xs = false.
Proof.
  induction xs as [| x xs IH]; simpl; [reflexivity |].
  now rewrite Z.eqb_refl.
Qed.

Lemma fold_smaller_repeat (x best : list Z) (k : nat) :
  fold_left smaller (repeat x k) best =
  match k with O => best | S _ => smaller best x end.
Proof.
  revert best. induction k as [| k IH]; intros best; [reflexivity |].
  cbn [repeat fold_left]. rewrite IH. destruct k; [reflexivity |].
  unfold smaller. destruct (list_ltb x best) eqn:E.
  - now rewrite list_ltb_irrefl.
  - now rewrite E.
Qed.

Lemma map_constant {A B : Type} (f : A -> B) (c : B) (xs : list A) :
  (forall x, f x = c) -> map f xs = repeat c (List.length xs).
Proof.
  intros H. induction xs as [| x xs IH]; simpl; [reflexivity |].
  now rewrite H, IH.
Qed.

Lemma range_len {A : Type} (xs : list A) :
  List.length (range (len xs)) = List.length xs.
Proof. unfold range, len. now rewrite length_map, length_seq, Nat2Z.id. Qed.

(** [prime_form] never fails: a non-empty set has a first candidate. *)
Lemma prime_form_total (p : PitchClassSet) : exists l, prime_form p = Ok l.
Proof.
  unfold prime_form. destruct (pitch_classes p) as [| x xs] eqn:E; [now exists [] |].
  unfold range at 1, len at 1. rewrite Nat2Z.id. cbn [List.length seq map app min_list].
  eexists. reflexivity.
Qed.

(** Since every rotation is sorted again, the candidates are copies
    of the sorted set and of its sorted inversion around 0, and the
    result is the smaller of these two lists; nothing moves the set
    to start on 0. *)
Lemma prime_form_two_candidates (p : PitchClassSet) :
  well_formed p -> pitch_classes p <> [] ->
  prime_form p =
  Ok (smaller (sorted (pitch_classes p)) (pitch_classes (inversion p 0))).
Proof.
  intros Hp Hne. unfold prime_form.
  destruct (pitch_classes p) as [| x xs] eqn:E; [contradiction |]. rewrite <- E.
  rewrite (map_constant _ (sorted (pitch_classes p)))
    by (intros i; now apply rotation_sorted).
  rewrite (map_constant _ (pitch_classes (inversion p 0)))
    by (intros i; apply rotation_of_new).
  rewrite !range_len.
  assert (Hlen : List.length (pitch_classes (inversion p 0)) = List.length (pitch_classes p)).
  { destruct Hp as [Hr Hn _]. unfold inversion. cbn [new pitch_classes].
    rewrite post_init_distinct.
    - rewrite <- (Permutation_length (sorted_perm _)). apply length_map.
    - apply map_range. intros a. apply invert_pitch_class.
    - apply map_nodup; auto.
      intros a b. apply invert_interval_class. }
  rewrite Hlen, E. cbn [List.length].
  set (s := sorted (x :: xs)). set (s' := pitch_classes (inversion p 0)).
  change (repeat s (S (List.length xs))) with (s :: repeat s (List.length xs)).
  cbn [app min_list]. f_equal.
  change (fun best item : list Z => if list_ltb item best then item else best)
    with smaller.
  rewrite fold_left_app, !fold_smaller_repeat.
  destruct (List.length xs); [reflexivity |].
  unfold smaller at 2. now rewrite list_ltb_irrefl.
Qed.

End PrimeForm.

(** ** What [retrograde] stores *)

Section Retrograde.

Lemma retrograde_pitch_classes (p : PitchClassSet) :
  pitch_classes (retrograde p) = rev (pitch_classes p).
Proof.
  unfold retrograde. destruct (pitch_classes p) as [| x xs]; reflexivity.
Qed.

Lemma rev_fixed_distinct (xs : list Z) :
  NoDup xs -> rev xs = xs -> (List.length xs <= 1)%nat.
Proof.
  destruct xs as [| x [| y r]]; simpl; try lia.
  intros Hn E. exfalso.
  inversion Hn as [| ? ? Hnin _]; subst.
  destruct (rev r ++ [y]) as [| z t] eqn:Er.
  - now destruct (rev r).
  - simpl in E. injection E as -> _.
    apply Hnin. apply (in_rev (y :: r)). simpl. rewrite Er. now left.
Qed.

(** [__eq__] tells a retrograde from its original as soon as the set
    has two elements. *)
Lemma retrograde_eq_small (p : PitchClassSet) :
  well_formed p ->
  eq_pcs (retrograde p) p = true -> (List.length (pitch_classes p) <= 1)%nat.
Proof.
  intros [_ Hn _] E. unfold eq_pcs in E.
  rewrite retrograde_pitch_classes in E. apply list_eqb_eq in E.
  now apply rev_fixed_distinct.
Qed.

End Retrograde.

(** ** Evaluations *)

(** C1. [prime_form] is not constant on a transposition/inversion
    class: the chromatic trichord [0, 1, 2] is its own prime form, its
    transposition by 1 has prime form [1, 2, 3] and its inversion
    around 1 has prime form [0, 1, 11]. *)
Theorem prime_form_moves_with_transposition :
  prime_form (new [0; 1; 2]) = Ok [0; 1; 2]
  /\ prime_form (transposition (new [0; 1; 2]) 1) = Ok [1; 2; 3]
  /\ prime_form (inversion (new [0; 1; 2]) 1) = Ok [0; 1; 11].
Proof. repeat split; vm_compute; reflexivity. Qed.

(** C2. The key [(0, 4, 6, 10)], labelled ["4-29"], is not a fixed
    point: [prime_form] sends it to [0, 2, 6, 8]. *)
Theorem table_key_not_fixed :
  exists items, table_get FORTE_TABLE 4 = Some items
    /\ In ([0; 4; 6; 10], "4-29") items
    /\ prime_form (new [0; 4; 6; 10]) = Ok [0; 2; 6; 8].
Proof.
  eexists. split; [reflexivity |]. split; [| vm_compute; reflexivity].
  simpl. tauto.
Qed.

(** Every other key of the table is a fixed point of [prime_form]. *)
Lemma table_keys_fixed_otherwise :
  forallb (fun ct : Z * list (list Z * string) =>
    forallb (fun e : list Z * string =>
      match prime_form (new (fst e)) with
      | Ok l => list_eqb l (fst e) || list_eqb (fst e) [0; 4; 6; 10]
      | Raise _ => false
      end) (snd ct)) FORTE_TABLE = true.
Proof. vm_compute. reflexivity. Qed.

(** C3. The round trip fails on the major triad [0, 4, 7], whose label
    ["3-11"] resolves to [0, 3, 7], and raises on the minor triad
    [9, 0, 4], for which [get_forte_number] returns [None]. *)
Theorem round_trip_fails :
  prime_form (new [0; 4; 7]) = Ok [0; 4; 7]
  /\ get_forte_number (new [0; 4; 7]) = Ok (Some "3-11")
  /\ classification_round_trip (new [0; 4; 7]) = Ok [0; 3; 7]
  /\ prime_form (new [9; 0; 4]) = Ok [0; 3; 8]
  /\ get_forte_number (new [9; 0; 4]) = Ok None
  /\ classification_round_trip (new [9; 0; 4]) = Raise AttributeError.
Proof. repeat split; vm_compute; reflexivity. Qed.

(** C4. Whatever [n] is, a rotated set is stored, and played back, in
    the sorted order of the set it was built from.  [rotation(1)] of
    [0, 1, 2] is stored as [0, 1, 2], while the rotated sequence
    [s[1:] + s[:1]] is [1, 2, 0]. *)
Theorem rotation_stored_sorted :
  (forall (pcs : list Z) (n : Z),
      get_playback_order (rotation (new pcs) n) = pitch_classes (new pcs))
  /\ get_playback_order (rotation (new [0; 1; 2]) 1) = [0; 1; 2]
  /\ slice_from (1 mod 3) (pitch_classes (new [0; 1; 2]))
     ++ slice_to (1 mod 3) (pitch_classes (new [0; 1; 2])) = [1; 2; 0].
Proof.
  split; [| split; vm_compute; reflexivity].
  intros pcs n. apply rotation_of_new.
Qed.

(** C5. The retrograde of [0, 1] stores [1, 0] and does not compare
    equal to [0, 1]. *)
Theorem retrograde_not_equal :
  pitch_classes (retrograde (new [0; 1])) = [1; 0]
  /\ eq_pcs (retrograde (new [0; 1])) (new [0; 1]) = false.
Proof. split; vm_compute; reflexivity. Qed.

(** C6. For [0, 2, 6, 8] the reported partner is ["4-29"], which
    resolves to [0, 4, 6, 10], the transposition of [0, 2, 6, 8]
    by 4; for [0, 1, 2, 4, 5] it is ["5-15"], which resolves to
    [0, 1, 3, 4, 5], the inversion of [0, 1, 2, 4, 5] around 5. *)
Theorem z_partner_is_related :
  get_z_partner (new [0; 2; 6; 8]) = Ok (Some "4-29")
  /\ get_set_from_forte_number "4-29" = Some (new [0; 4; 6; 10])
  /\ transposition (new [0; 2; 6; 8]) 4 = new [0; 4; 6; 10]
  /\ related_by_T_or_I (new [0; 2; 6; 8]) (new [0; 4; 6; 10])
  /\ get_z_partner (new [0; 1; 2; 4; 5]) = Ok (Some "5-15")
  /\ get_set_from_forte_number "5-15" = Some (new [0; 1; 3; 4; 5])
  /\ inversion (new [0; 1; 2; 4; 5]) 5 = new [0; 1; 3; 4; 5]
  /\ related_by_T_or_I (new [0; 1; 2; 4; 5]) (new [0; 1; 3; 4; 5]).
Proof.
  repeat split; try (vm_compute; reflexivity).
  - exists 4. left. vm_compute. reflexivity.
  - exists 5. right. vm_compute. reflexivity.
Qed.

(** ** Sets as sorted lists: equality by membership *)

Section Membership.

Lemma mem_In (x : Z) (xs : list Z) : mem x xs = true <-> In x xs.
Proof.
  unfold mem. rewrite existsb_exists. split.
  - intros [y [Hy E]]. apply Z.eqb_eq in E. now subst.
  - intros H. exists x. split; [exact H | apply Z.eqb_refl].
Qed.

Lemma mem_not_In (x : Z) (xs : list Z) : mem x xs = false <-> ~ In x xs.
Proof.
  rewrite <- mem_In. destruct (mem x xs); split; congruence.
Qed.

Lemma new_In (pcs : list Z) (x : Z) :
  In x (pitch_classes (new pcs)) <-> exists y, In y pcs /\ x = y mod 12.
Proof.
  cbn [new pitch_classes]. rewrite post_init_In, in_map_iff.
  split; intros [y [H1 H2]]; exists y; auto.
Qed.

(** Two lists with the same residues build the same instance. *)
Lemma new_ext (xs ys : list Z) :
  (forall x, In x (map (fun pc => pc mod 12) xs)
             <-> In x (map (fun pc => pc mod 12) ys)) ->
  new xs = new ys.
Proof.
  intros H. unfold new.
  assert (E : post_init xs = post_init ys).
  { apply sorted_unique; try apply post_init_sorted.
    apply NoDup_Permutation; try apply post_init_nodup.
    intros x. now rewrite !post_init_In. }
  now rewrite E.
Qed.

Lemma new_map_congr (f g : Z -> Z) (xs : list Z) :
  (forall z, In z xs -> f z mod 12 = g z mod 12) ->
  new (map f xs) = new (map g xs).
Proof.
  intros H. apply new_ext. intros x. rewrite !map_map, !in_map_iff.
  split; intros [z [E Hz]]; exists z; split; auto; rewrite <- E;
    [symmetry |]; now apply H.
Qed.

Lemma new_map_post_init (f h : Z -> Z) (xs : list Z) :
  (forall z, f (z mod 12) mod 12 = h z mod 12) ->
  new (map f (post_init xs)) = new (map h xs).
Proof.
  intros H. apply new_ext. intros x. rewrite !map_map, !in_map_iff. split.
  - intros [y [E Hy]]. apply post_init_In, in_map_iff in Hy.
    destruct Hy as [z [<- Hz]]. exists z. split; [| exact Hz].
    now rewrite <- H.
  - intros [z [E Hz]]. exists (z mod 12). split; [now rewrite H |].
    apply post_init_In, in_map_iff. now exists z.
Qed.

Lemma new_rev (xs : list Z) : new (rev xs) = new xs.
Proof.
  apply new_ext. intros x. rewrite map_rev. symmetry. apply in_rev.
Qed.

(** Rebuilding a constructed set from its stored list changes nothing. *)
Lemma new_stored (pcs : list Z) : new (pitch_classes (new pcs)) = new pcs.
Proof.
  unfold new. cbn [pitch_classes]. now rewrite post_init_idem.
Qed.

(** A list of distinct pitch classes is stored sorted and counted
    as it is. *)
Lemma new_distinct (xs : list Z) :
  Forall pitch_class xs -> NoDup xs ->
  pitch_classes (new xs) = sorted xs /\ cardinality (new xs) = len xs.
Proof.
  intros Hr Hn. cbn [new pitch_classes cardinality].
  rewrite (post_init_distinct _ Hr Hn). split; [reflexivity |].
  unfold len. f_equal. symmetry. apply Permutation_length, sorted_perm.
Qed.

Lemma well_formed_In (p : PitchClassSet) (x : Z) :
  well_formed p -> In x (pitch_classes p) -> pitch_class x.
Proof.
  intros [Hr _ _] Hx. rewrite Forall_forall in Hr. now apply Hr.
Qed.

Lemma contains_In (p : PitchClassSet) (x : Z) :
  contains p x = true <-> In (x mod 12) (pitch_classes p).
Proof. unfold contains. apply mem_In. Qed.

(** The stored list of a constructed set, read as a set. *)
Lemma new_In_range (xs : list Z) (x : Z) :
  Forall pitch_class xs -> (In x (pitch_classes (new xs)) <-> In x xs).
Proof.
  intros Hr. rewrite new_In. rewrite Forall_forall in Hr. split.
  - intros [y [Hy ->]]. rewrite Z.mod_small; [exact Hy | now apply Hr].
  - intros Hx. exists x. split; [exact Hx |].
    symmetry. apply Z.mod_small. now apply Hr.
Qed.

End Membership.

(** ** Transposition and inversion as a group action *)

Ltac mod12 := intros; Z.div_mod_to_equations; lia.

Section GroupAction.

(** X1. Transposing twice is transposing by the sum, for every
    instance and all integers; transposition depends on [n] modulo 12
    only, and a constructed set is unchanged by every multiple
    of 12. *)
Theorem transposition_compose (p : PitchClassSet) (pcs : list Z) (a b n : Z) :
  transposition (transposition p a) b = transposition p (a + b)
  /\ transposition p (n mod 12) = transposition p n
  /\ transposition (new pcs) (12 * n) = new pcs.
Proof.
  unfold transposition. cbn [new pitch_classes]. repeat split.
  - rewrite (new_map_post_init _ (fun pc => (pc + b) mod 12)) by mod12.
    rewrite map_map. apply new_map_congr. mod12.
  - apply new_map_congr. mod12.
  - rewrite (new_map_post_init _ (fun pc => pc)) by mod12.
    now rewrite map_id.
Qed.

Lemma inversion_twice (pcs : list Z) (n : Z) :
  inversion (inversion (new pcs) n) n = new pcs.
Proof.
  unfold inversion at 1. cbn [inversion new pitch_classes].
  rewrite (new_map_post_init _ (fun pc => (n - pc) mod 12)) by mod12.
  rewrite map_map.
  rewrite (new_map_post_init _ (fun pc => pc)) by mod12.
  now rewrite map_id.
Qed.

(** X2. Inverting twice around the same axis gives back a constructed
    set; on any instance it gives the constructed set with the same
    elements. *)
Theorem inversion_involution (p : PitchClassSet) (pcs : list Z) (n : Z) :
  inversion (inversion (new pcs) n) n = new pcs
  /\ inversion (inversion p n) n = new (pitch_classes p).
Proof.
  split; [apply inversion_twice |].
  unfold inversion. cbn [new pitch_classes].
  rewrite (new_map_post_init _ (fun pc => (n - pc) mod 12)) by mod12.
  rewrite map_map. rewrite <- (map_id (pitch_classes p)) at 2.
  apply new_map_congr. mod12.
Qed.

(** X3. Inversion composed with transposition is an inversion again:
    transposing first moves the axis down, transposing afterwards
    moves it up; two inversions make a transposition. *)
Theorem inversion_transposition_compose (p : PitchClassSet) (a n m : Z) :
  inversion (transposition p a) n = inversion p (n - a)
  /\ transposition (inversion p n) a = inversion p (n + a)
  /\ inversion (inversion p n) m = transposition p (m - n).
Proof.
  unfold inversion, transposition. cbn [new pitch_classes]. repeat split.
  - rewrite (new_map_post_init _ (fun pc => (n - pc) mod 12)) by mod12.
    rewrite map_map. apply new_map_congr. mod12.
  - rewrite (new_map_post_init _ (fun pc => (pc + a) mod 12)) by mod12.
    rewrite map_map. apply new_map_congr. mod12.
  - rewrite (new_map_post_init _ (fun pc => (m - pc) mod 12)) by mod12.
    rewrite map_map. apply new_map_congr. mod12.
Qed.

Lemma new_map_cardinality (f : Z -> Z) (p : PitchClassSet) :
  (forall a, pitch_class (f a)) ->
  (forall a b, pitch_class a -> pitch_class b ->
               interval_class (f a) (f b) = interval_class a b) ->
  well_formed p ->
  cardinality (new (map f (pitch_classes p))) = cardinality p.
Proof.
  intros Hf Hc [Hr Hn Hcard].
  destruct (new_distinct (map f (pitch_classes p))) as [_ E].
  - now apply map_range.
  - now apply map_nodup.
  - rewrite E, Hcard. unfold len. now rewrite length_map.
Qed.

(** X4. Transposition and inversion keep the cardinality of every
    instance the program can build. *)
Theorem transposition_inversion_cardinality (p : PitchClassSet) (n : Z) :
  instance p ->
  cardinality (transposition p n) = cardinality p
  /\ cardinality (inversion p n) = cardinality p.
Proof.
  intros Hp. apply instance_well_formed in Hp. split.
  - apply (new_map_cardinality (fun pc => (pc + n) mod 12)); auto.
    + intros a. apply transpose_pitch_class.
    + intros a b. apply transpose_interval_class.
  - apply (new_map_cardinality (fun pc => (n - pc) mod 12)); auto.
    + intros a. apply invert_pitch_class.
    + intros a b. apply invert_interval_class.
Qed.

Lemma transposition_inversion_cardinality_witness :
  instance (retrograde (new [0; 4; 7]))
  /\ cardinality (transposition (retrograde (new [0; 4; 7])) 5)
     = cardinality (retrograde (new [0; 4; 7]))
  /\ cardinality (inversion (retrograde (new [0; 4; 7])) 5)
     = cardinality (retrograde (new [0; 4; 7])).
Proof.
  assert (H : instance (retrograde (new [0; 4; 7])))
    by apply instance_retrograde, instance_new.
  split; [exact H |].
  apply (transposition_inversion_cardinality _ 5 H).
Defined.

(** X5. Transposition moves membership along: [x + n] is in the
    transposed set exactly when [x] is in the set. *)
Theorem transposition_contains (p : PitchClassSet) (n x : Z) :
  instance p ->
  contains (transposition p n) (x + n) = contains p x.
Proof.
  intros Hp. apply instance_well_formed in Hp.
  apply Bool.eq_iff_eq_true. rewrite !contains_In.
  unfold transposition. rewrite new_In. split.
  - intros [y [Hy E]]. apply in_map_iff in Hy. destruct Hy as [z [<- Hz]].
    pose proof (well_formed_In p z Hp Hz) as Hr. unfold pitch_class in Hr.
    replace (x mod 12) with z; [exact Hz |]. revert E. mod12.
  - intros Hx. exists ((x mod 12 + n) mod 12). split.
    + apply in_map_iff. now exists (x mod 12).
    + mod12.
Qed.

Lemma transposition_contains_witness :
  instance (new [0; 4; 7])
  /\ contains (transposition (new [0; 4; 7]) 9) (7 + 9) = contains (new [0; 4; 7]) 7.
Proof.
  split; [apply instance_new |].
  apply (transposition_contains (new [0; 4; 7]) 9 7). apply instance_new.
Defined.

End GroupAction.

(** ** Retrograde *)

Section RetrogradeOrder.

(** X6. Retrograding twice gives back the instance, stored order and
    cardinality included. *)
Theorem retrograde_involution (p : PitchClassSet) :
  instance p -> retrograde (retrograde p) = p.
Proof.
  intros Hp. apply instance_well_formed in Hp. destruct Hp as [Hr Hn Hc].
  destruct p as [l c]. cbn [pitch_classes cardinality] in *.
  unfold retrograde at 2. cbn [pitch_classes].
  destruct l as [| x xs]; [subst c; reflexivity |].
  unfold retrograde. cbn [pitch_classes cardinality].
  destruct (rev (x :: xs)) as [| y ys] eqn:E.
  - apply (f_equal (@List.length Z)) in E. rewrite length_rev in E. discriminate.
  - rewrite <- E, rev_involutive. f_equal.
    destruct (new_distinct (x :: xs) Hr Hn) as [_ ->]. now symmetry.
Qed.

Lemma retrograde_involution_witness :
  instance (new [7; 0; 4])
  /\ retrograde (retrograde (new [7; 0; 4])) = new [7; 0; 4].
Proof.
  split; [apply instance_new |].
  apply (retrograde_involution (new [7; 0; 4])). apply instance_new.
Defined.

Lemma retrograde_map (f : Z -> Z) (p : PitchClassSet) :
  new (map f (pitch_classes (retrograde p))) = new (map f (pitch_classes p)).
Proof. rewrite retrograde_pitch_classes, map_rev. apply new_rev. Qed.

(** X7. A transposition or inversion of a retrograde is the
    transposition or inversion of the original: the reversed order
    does not survive the next operation. *)
Theorem retrograde_order_lost (p : PitchClassSet) (n : Z) :
  transposition (retrograde p) n = transposition p n
  /\ inversion (retrograde p) n = inversion p n.
Proof.
  unfold transposition, inversion. split; apply retrograde_map.
Qed.

(** X8. Retrograde keeps the cardinality, the members, the interval
    vector and the prime form of an instance. *)
Theorem retrograde_invariants (p : PitchClassSet) :
  instance p ->
  cardinality (retrograde p) = cardinality p
  /\ (forall x, contains (retrograde p) x = contains p x)
  /\ interval_vector (retrograde p) = interval_vector p
  /\ prime_form (retrograde p) = prime_form p.
Proof.
  intros Hp.
  pose proof (instance_well_formed _ (instance_retrograde p Hp)) as Hw'.
  pose proof (instance_well_formed _ Hp) as Hw.
  assert (Hcard : cardinality (retrograde p) = cardinality p).
  { destruct Hw as [_ _ Hc], Hw' as [_ _ Hc'].
    rewrite Hc, Hc', retrograde_pitch_classes. unfold len. now rewrite length_rev. }
  repeat split.
  - exact Hcard.
  - intros x. apply Bool.eq_iff_eq_true.
    rewrite !contains_In, retrograde_pitch_classes. symmetry. apply in_rev.
  - rewrite !interval_vector_loops.
    destruct Hw as [Hr Hn _], Hw' as [Hr' Hn' _].
    apply interval_outer_ext; auto.
    intros k. rewrite retrograde_pitch_classes.
    symmetry. apply pair_count_perm, Permutation_rev.
  - destruct (pitch_classes p) as [| x xs] eqn:E.
    + unfold retrograde, prime_form. now rewrite E.
    + rewrite !prime_form_two_candidates; auto.
      * unfold inversion at 1. rewrite retrograde_map. fold (inversion p 0).
        rewrite retrograde_pitch_classes.
        do 2 f_equal. symmetry. apply sorted_of_perm, Permutation_rev.
      * rewrite E. discriminate.
      * rewrite retrograde_pitch_classes, E. intros H.
        apply (f_equal (@List.length Z)) in H. rewrite length_rev in H. discriminate.
Qed.

Lemma retrograde_invariants_witness :
  instance (new [2; 11; 5])
  /\ cardinality (retrograde (new [2; 11; 5])) = cardinality (new [2; 11; 5])
  /\ (forall x, contains (retrograde (new [2; 11; 5])) x = contains (new [2; 11; 5]) x)
  /\ interval_vector (retrograde (new [2; 11; 5])) = interval_vector (new [2; 11; 5])
  /\ prime_form (retrograde (new [2; 11; 5])) = prime_form (new [2; 11; 5]).
Proof.
  split; [apply instance_new |].
  apply (retrograde_invariants (new [2; 11; 5])). apply instance_new.
Defined.

End RetrogradeOrder.

(** ** Union, intersection, complement, containment *)

Section SetAlgebra.

Lemma range_12 : range 12 = [0; 1; 2; 3; 4; 5; 6; 7; 8; 9; 10; 11].
Proof. reflexivity. Qed.

Lemma range_12_In (x : Z) : In x (range 12) <-> pitch_class x.
Proof. rewrite range_12. unfold pitch_class. simpl. lia. Qed.

Lemma range_12_pitch_classes : Forall pitch_class (range 12).
Proof. apply Forall_forall. intros x. apply range_12_In. Qed.

Lemma range_12_nodup : NoDup (range 12).
Proof.
  unfold range. apply NoDup_map_NoDup_ForallPairs; [| apply seq_NoDup].
  intros a b _ _. apply Nat2Z.inj.
Qed.

Lemma filter_partition_length {A : Type} (f : A -> bool) (xs : list A) :
  (List.length (filter f xs) + List.length (filter (fun x => negb (f x)) xs)
   = List.length xs)%nat.
Proof.
  induction xs as [| x xs IH]; simpl; [reflexivity |].
  destruct (f x); simpl; lia.
Qed.

Lemma Forall_filter_keep {A : Type} (P : A -> Prop) (f : A -> bool) (xs : list A) :
  Forall P xs -> Forall P (filter f xs).
Proof.
  rewrite !Forall_forall. intros H x Hx. apply filter_In in Hx. now apply H.
Qed.

(** Instances built from lists of pitch classes with the same
    elements are the same. *)
Lemma new_ext_range (xs ys : list Z) :
  Forall pitch_class xs -> Forall pitch_class ys ->
  (forall x, In x xs <-> In x ys) -> new xs = new ys.
Proof.
  intros Hx Hy H. apply new_ext. intros x.
  now rewrite (map_mod_fixed _ Hx), (map_mod_fixed _ Hy).
Qed.

Lemma complement_range (p : PitchClassSet) :
  Forall pitch_class
    (filter (fun pc => negb (mem pc (pitch_classes p))) (range 12)).
Proof. apply Forall_filter_keep, range_12_pitch_classes. Qed.

Lemma complement_In (p : PitchClassSet) (x : Z) :
  In x (pitch_classes (complement p))
  <-> pitch_class x /\ ~ In x (pitch_classes p).
Proof.
  unfold complement. rewrite (new_In_range _ _ (complement_range p)).
  now rewrite filter_In, range_12_In, negb_true_iff, mem_not_In.
Qed.

Lemma union_In (p q : PitchClassSet) (x : Z) :
  well_formed p -> well_formed q ->
  (In x (pitch_classes (union p q))
   <-> In x (pitch_classes p) \/ In x (pitch_classes q)).
Proof.
  intros [Hp _ _] [Hq _ _]. unfold union.
  rewrite new_In_range by (apply Forall_app; auto).
  apply in_app_iff.
Qed.

Lemma intersection_In (p q : PitchClassSet) (x : Z) :
  well_formed p ->
  (In x (pitch_classes (intersection p q))
   <-> In x (pitch_classes p) /\ In x (pitch_classes q)).
Proof.
  intros [Hp _ _]. unfold intersection.
  rewrite new_In_range by now apply Forall_filter_keep.
  now rewrite filter_In, mem_In.
Qed.

Lemma is_subset_of_incl (p q : PitchClassSet) :
  is_subset_of p q = true
  <-> forall x, In x (pitch_classes p) -> In x (pitch_classes q).
Proof.
  unfold is_subset_of. rewrite forallb_forall.
  split; intros H x Hx; apply mem_In; auto.
Qed.

(** X9. The complement of the complement of a constructed set is the
    set. *)
Theorem complement_involution (pcs : list Z) :
  complement (complement (new pcs)) = new pcs.
Proof.
  rewrite <- (new_stored pcs) at 2. unfold complement at 1.
  apply new_ext_range.
  - apply complement_range.
  - apply post_init_range.
  - intros x. rewrite filter_In, range_12_In, negb_true_iff, mem_not_In.
    rewrite complement_In. split.
    + intros [Hx H]. destruct (in_dec Z.eq_dec x (pitch_classes (new pcs))); tauto.
    + intros Hx. split; [| tauto].
      eapply well_formed_In; [apply new_well_formed | exact Hx].
Qed.

Lemma complement_length (xs : list Z) :
  Forall pitch_class xs -> NoDup xs ->
  len (filter (fun pc => negb (mem pc xs)) (range 12)) = 12 - len xs.
Proof.
  intros Hr Hn. unfold len.
  pose proof (filter_partition_length (fun pc => mem pc xs) (range 12)) as H.
  assert (E : List.length (filter (fun pc => mem pc xs) (range 12)) = List.length xs).
  { apply Permutation_length, NoDup_Permutation; auto.
    - apply NoDup_filter, range_12_nodup.
    - intros x. rewrite filter_In, mem_In, range_12_In.
      rewrite Forall_forall in Hr. split; [tauto | auto]. }
  rewrite E in H. change (List.length (range 12)) with 12%nat in H. lia.
Qed.

(** X10. The complement of an instance has [12 - cardinality]
    elements. *)
Theorem complement_cardinality (p : PitchClassSet) :
  instance p -> cardinality (complement p) = 12 - cardinality p.
Proof.
  intros Hp. apply instance_well_formed in Hp. destruct Hp as [Hr Hn Hc].
  unfold complement.
  destruct (new_distinct _ (complement_range p)
              (NoDup_filter _ range_12_nodup)) as [_ ->].
  rewrite Hc. now apply complement_length.
Qed.

Lemma complement_cardinality_witness :
  instance (retrograde (new [0; 4; 7]))
  /\ cardinality (complement (retrograde (new [0; 4; 7])))
     = 12 - cardinality (retrograde (new [0; 4; 7])).
Proof.
  assert (H : instance (retrograde (new [0; 4; 7])))
    by apply instance_retrograde, instance_new.
  split; [exact H | apply (complement_cardinality _ H)].
Defined.

Lemma complement_well_formed (p : PitchClassSet) : well_formed (complement p).
Proof. unfold complement. apply new_well_formed. Qed.

Lemma union_complement (p : PitchClassSet) :
  well_formed p -> union p (complement p) = new (range 12).
Proof.
  intros Hp. unfold union. apply new_ext_range.
  - apply Forall_app. split; [apply Hp | apply complement_well_formed].
  - apply range_12_pitch_classes.
  - intros x. rewrite in_app_iff, complement_In, range_12_In. split.
    + intros [H | [H _]]; [eapply well_formed_In; eauto | exact H].
    + intros H. destruct (in_dec Z.eq_dec x (pitch_classes p)); tauto.
Qed.

(** X11. An instance and its complement are disjoint and together
    make the twelve pitch classes. *)
Theorem complement_partition (p : PitchClassSet) :
  instance p ->
  union p (complement p) = new (range 12)
  /\ cardinality (union p (complement p)) = 12
  /\ intersection p (complement p) = new [].
Proof.
  intros Hp. apply instance_well_formed in Hp.
  rewrite (union_complement p Hp). repeat split.
  unfold intersection. apply new_ext_range.
  - apply Forall_filter_keep, Hp.
  - constructor.
  - intros x. rewrite filter_In, mem_In, complement_In. simpl. tauto.
Qed.

Lemma complement_partition_witness :
  instance (new [1; 3; 8])
  /\ union (new [1; 3; 8]) (complement (new [1; 3; 8])) = new (range 12)
  /\ cardinality (union (new [1; 3; 8]) (complement (new [1; 3; 8]))) = 12
  /\ intersection (new [1; 3; 8]) (complement (new [1; 3; 8])) = new [].
Proof.
  split; [apply instance_new |].
  apply (complement_partition (new [1; 3; 8])). apply instance_new.
Defined.

(** X12. [contains] on a union, an intersection and a complement of
    instances is the disjunction, the conjunction and the negation of
    [contains] on the operands. *)
Theorem contains_set_operations (p q : PitchClassSet) (x : Z) :
  instance p -> instance q ->
  contains (union p q) x = contains p x || contains q x
  /\ contains (intersection p q) x = contains p x && contains q x
  /\ contains (complement p) x = negb (contains p x).
Proof.
  intros Hp Hq. apply instance_well_formed in Hp, Hq. repeat split.
  - apply Bool.eq_iff_eq_true.
    rewrite orb_true_iff, !contains_In. now apply union_In.
  - apply Bool.eq_iff_eq_true.
    rewrite andb_true_iff, !contains_In. now apply intersection_In.
  - apply Bool.eq_iff_eq_true.
    rewrite negb_true_iff, <- Bool.not_true_iff_false, !contains_In, complement_In.
    split; [tauto |]. intros H. split; [| exact H].
    unfold pitch_class. apply Z.mod_pos_bound. lia.
Qed.

Lemma contains_set_operations_witness :
  instance (new [0; 4; 7]) /\ instance (retrograde (new [4; 9]))
  /\ contains (union (new [0; 4; 7]) (retrograde (new [4; 9]))) 21
     = contains (new [0; 4; 7]) 21 || contains (retrograde (new [4; 9])) 21
  /\ contains (intersection (new [0; 4; 7]) (retrograde (new [4; 9]))) 21
     = contains (new [0; 4; 7]) 21 && contains (retrograde (new [4; 9])) 21
  /\ contains (complement (new [0; 4; 7])) 21 = negb (contains (new [0; 4; 7]) 21).
Proof.
  assert (H1 : instance (new [0; 4; 7])) by apply instance_new.
  assert (H2 : instance (retrograde (new [4; 9])))
    by apply instance_retrograde, instance_new.
  split; [exact H1 |]. split; [exact H2 |].
  apply (contains_set_operations _ _ 21 H1 H2).
Defined.

(** X13. Union is commutative and associative, and intersection is
    commutative, on all instances whatever their stored order. *)
Theorem union_intersection_laws (p q r : PitchClassSet) :
  union p q = union q p
  /\ union (union p q) r = union p (union q r)
  /\ intersection p q = intersection q p.
Proof.
  unfold union, intersection. cbn [new pitch_classes]. repeat split.
  - apply new_ext. intros x. rewrite !map_app, !in_app_iff. tauto.
  - apply new_ext. intros x. rewrite !map_app, !in_app_iff, !in_map_iff.
    assert (H : forall xs, (exists y, y mod 12 = x /\ In y (post_init xs))
                           <-> In x (map (fun pc => pc mod 12) xs)).
    { intros xs. split.
      - intros [y [<- Hy]]. pose proof (post_init_range xs) as Hr.
        rewrite Forall_forall in Hr. rewrite Z.mod_small by now apply Hr.
        now apply post_init_In.
      - intros Hx. exists x. split; [| now apply post_init_In].
        apply in_map_iff in Hx. destruct Hx as [z [<- _]]. apply Z.mod_mod. lia. }
    rewrite !H, !map_app, !in_app_iff, !in_map_iff. tauto.
  - apply new_ext. intros x. rewrite !in_map_iff.
    split; intros [y [<- Hy]]; exists y; split; auto;
      rewrite filter_In, mem_In in *; tauto.
Qed.

(** X14. De Morgan: the complement of a union of instances is the
    intersection of the complements. *)
Theorem complement_union (p q : PitchClassSet) :
  instance p -> instance q ->
  complement (union p q) = intersection (complement p) (complement q).
Proof.
  intros Hp Hq. apply instance_well_formed in Hp, Hq.
  unfold complement at 1. unfold intersection. apply new_ext_range.
  - apply complement_range.
  - apply Forall_filter_keep, complement_well_formed.
  - intros x. rewrite !filter_In, mem_In, negb_true_iff, mem_not_In, range_12_In.
    rewrite (union_In p q x Hp Hq), !complement_In. tauto.
Qed.

Lemma complement_union_witness :
  instance (new [0; 1]) /\ instance (new [1; 6])
  /\ complement (union (new [0; 1]) (new [1; 6]))
     = intersection (complement (new [0; 1])) (complement (new [1; 6])).
Proof.
  split; [apply instance_new |]. split; [apply instance_new |].
  apply (complement_union (new [0; 1]) (new [1; 6])); apply instance_new.
Defined.

(** X15. [is_subset_of] is reflexive and transitive, and two
    constructed sets that contain each other are the same set. *)
Theorem is_subset_of_order (p q r : PitchClassSet) (xs ys : list Z) :
  is_subset_of p p = true
  /\ (is_subset_of p q = true -> is_subset_of q r = true ->
      is_subset_of p r = true)
  /\ (is_subset_of (new xs) (new ys) = true ->
      is_subset_of (new ys) (new xs) = true -> new xs = new ys).
Proof.
  rewrite !is_subset_of_incl. repeat split; auto.
  intros H1 H2. rewrite <- (new_stored xs), <- (new_stored ys).
  apply new_ext_range; try apply post_init_range.
  intros x. split; [apply H1 | apply H2].
Qed.

Lemma is_subset_of_order_witness :
  is_subset_of (new [4; 0]) (new [0; 16]) = true
  /\ is_subset_of (new [0; 16]) (new [4; 0]) = true
  /\ new [4; 0] = new [0; 16].
Proof.
  assert (H1 : is_subset_of (new [4; 0]) (new [0; 16]) = true) by reflexivity.
  assert (H2 : is_subset_of (new [0; 16]) (new [4; 0]) = true) by reflexivity.
  split; [exact H1 |]. split; [exact H2 |].
  destruct (is_subset_of_order (new []) (new []) (new []) [4; 0] [0; 16])
    as [_ [_ H]].
  exact (H H1 H2).
Defined.

(** X16. For an instance [p] and a constructed set [q], [p] is a
    subset of [q] exactly when their union is [q], and exactly when
    their intersection has the elements of [p]. *)
Theorem is_subset_of_union (p : PitchClassSet) (ys : list Z) :
  instance p ->
  (is_subset_of p (new ys) = true <-> union p (new ys) = new ys)
  /\ (is_subset_of p (new ys) = true
      <-> intersection p (new ys) = new (pitch_classes p)).
Proof.
  intros Hp. apply instance_well_formed in Hp.
  pose proof (new_well_formed ys) as Hq.
  rewrite is_subset_of_incl. split; split.
  - intros H. rewrite <- (new_stored ys) at 2. unfold union.
    apply new_ext_range.
    + apply Forall_app. split; [apply Hp | apply Hq].
    + apply Hq.
    + intros x. rewrite in_app_iff. split; [intros [Hx | Hx]; auto | auto].
  - intros E x Hx. rewrite <- E. apply union_In; auto.
  - intros H. unfold intersection. apply new_ext_range.
    + apply Forall_filter_keep, Hp.
    + apply Hp.
    + intros x. rewrite filter_In, mem_In. split; [tauto | auto].
  - intros E x Hx.
    assert (Hx' : In x (pitch_classes (new (pitch_classes p))))
      by (apply new_In_range; [apply Hp | exact Hx]).
    rewrite <- E in Hx'. now apply intersection_In in Hx'.
Qed.

Lemma is_subset_of_union_witness :
  instance (retrograde (new [0; 7]))
  /\ (is_subset_of (retrograde (new [0; 7])) (new [0; 4; 7]) = true
      <-> union (retrograde (new [0; 7])) (new [0; 4; 7]) = new [0; 4; 7])
  /\ (is_subset_of (retrograde (new [0; 7])) (new [0; 4; 7]) = true
      <-> intersection (retrograde (new [0; 7])) (new [0; 4; 7])
          = new (pitch_classes (retrograde (new [0; 7])))).
Proof.
  assert (H : instance (retrograde (new [0; 7])))
    by apply instance_retrograde, instance_new.
  split; [exact H | apply (is_subset_of_union _ [0; 4; 7] H)].
Defined.

End SetAlgebra.

(** ** Adding and removing a pitch class *)

Section AddRemove.

Lemma remove_range (p : PitchClassSet) (x : Z) :
  well_formed p ->
  Forall pitch_class (filter (fun pc => negb (pc =? x mod 12)) (pitch_classes p)).
Proof. intros Hp. apply Forall_filter_keep, Hp. Qed.

Lemma add_range (p : PitchClassSet) (x : Z) :
  well_formed p -> Forall pitch_class (pitch_classes p ++ [x mod 12]).
Proof.
  intros Hp. apply Forall_app. split; [apply Hp |].
  constructor; [| constructor]. unfold pitch_class. apply Z.mod_pos_bound. lia.
Qed.

Lemma add_In (p : PitchClassSet) (x y : Z) :
  well_formed p ->
  (In y (pitch_classes (add_pitch_class p x))
   <-> In y (pitch_classes p) \/ y = x mod 12).
Proof.
  intros Hp. unfold add_pitch_class.
  rewrite (new_In_range _ _ (add_range p x Hp)), in_app_iff. simpl.
  intuition congruence.
Qed.

Lemma remove_In (p : PitchClassSet) (x y : Z) :
  well_formed p ->
  (In y (pitch_classes (remove_pitch_class p x))
   <-> In y (pitch_classes p) /\ y <> x mod 12).
Proof.
  intros Hp. unfold remove_pitch_class.
  rewrite (new_In_range _ _ (remove_range p x Hp)), filter_In.
  now rewrite negb_true_iff, Z.eqb_neq.
Qed.

Lemma remove_one_length (a : Z) (xs : list Z) :
  NoDup xs -> In a xs ->
  S (List.length (filter (fun pc => negb (pc =? a)) xs)) = List.length xs.
Proof.
  induction 1 as [| x xs Hnin Hn IH]; intros Hin; [contradiction |].
  cbn [filter]. destruct (Z.eqb_spec x a) as [-> | Hne]; cbn [negb List.length].
  - rewrite forallb_filter_id; [lia |].
    apply forallb_forall. intros y Hy. apply negb_true_iff, Z.eqb_neq.
    intros ->. contradiction.
  - destruct Hin as [-> | Hin]; [contradiction |]. rewrite <- (IH Hin). lia.
Qed.

(** X17. On a constructed set, removing a pitch class that was just
    added and was not there before, or adding back one that was just
    removed and was there before, gives the set back. *)
Theorem add_remove_round_trip (pcs : list Z) (x : Z) :
  (contains (new pcs) x = false ->
   remove_pitch_class (add_pitch_class (new pcs) x) x = new pcs)
  /\ (contains (new pcs) x = true ->
      add_pitch_class (remove_pitch_class (new pcs) x) x = new pcs).
Proof.
  pose proof (new_well_formed pcs) as Hw.
  assert (Hadd : well_formed (add_pitch_class (new pcs) x)) by apply new_well_formed.
  assert (Hrem : well_formed (remove_pitch_class (new pcs) x)) by apply new_well_formed.
  split; intros Hc.
  - apply Bool.not_true_iff_false in Hc. rewrite contains_In in Hc.
    rewrite <- (new_stored pcs) at 2. unfold remove_pitch_class.
    apply new_ext_range; [now apply remove_range | apply Hw |].
    intros y. rewrite filter_In, negb_true_iff, Z.eqb_neq, (add_In _ _ _ Hw).
    split; [tauto |]. intros Hy. split; [tauto | congruence].
  - rewrite contains_In in Hc.
    rewrite <- (new_stored pcs) at 2. unfold add_pitch_class.
    apply new_ext_range; [now apply add_range | apply Hw |].
    intros y. rewrite in_app_iff, (remove_In _ _ _ Hw). simpl.
    destruct (Z.eq_dec y (x mod 12)) as [-> | Hne]; intuition congruence.
Qed.

Lemma add_remove_round_trip_witness :
  contains (new [0; 4]) 19 = false
  /\ remove_pitch_class (add_pitch_class (new [0; 4]) 19) 19 = new [0; 4].
Proof.
  assert (H : contains (new [0; 4]) 19 = false) by reflexivity.
  split; [exact H |].
  exact (proj1 (add_remove_round_trip [0; 4] 19) H).
Defined.

(** X18. After [add_pitch_class] the pitch class is contained, after
    [remove_pitch_class] it is not; adding a pitch class that is not
    in an instance raises its cardinality by one, removing one that is
    in it lowers it by one; adding a member or removing a non-member
    leaves a constructed set as it is. *)
Theorem add_remove_effects (p : PitchClassSet) (pcs : list Z) (x : Z) :
  instance p ->
  contains (add_pitch_class p x) x = true
  /\ contains (remove_pitch_class p x) x = false
  /\ (contains p x = false ->
      cardinality (add_pitch_class p x) = cardinality p + 1)
  /\ (contains p x = true ->
      cardinality (remove_pitch_class p x) = cardinality p - 1)
  /\ (contains (new pcs) x = true -> add_pitch_class (new pcs) x = new pcs)
  /\ (contains (new pcs) x = false -> remove_pitch_class (new pcs) x = new pcs).
Proof.
  intros Hp. apply instance_well_formed in Hp.
  pose proof Hp as [Hr Hn Hc].
  pose proof (new_well_formed pcs) as Hw.
  split; [| split; [| split; [| split; [| split]]]].
  - apply contains_In, add_In; auto.
  - apply Bool.not_true_iff_false. rewrite contains_In, remove_In by auto. tauto.
  - intros Hx. apply Bool.not_true_iff_false in Hx. rewrite contains_In in Hx.
    unfold add_pitch_class.
    destruct (new_distinct (pitch_classes p ++ [x mod 12])) as [_ ->].
    + now apply add_range.
    + apply NoDup_app; auto.
      * constructor; [intros [] | constructor].
      * intros a Ha [<- | []]. contradiction.
    + rewrite Hc. unfold len. rewrite length_app. simpl. lia.
  - intros Hx. rewrite contains_In in Hx. unfold remove_pitch_class.
    destruct (new_distinct
                (filter (fun pc => negb (pc =? x mod 12)) (pitch_classes p)))
      as [_ ->].
    + now apply remove_range.
    + now apply NoDup_filter.
    + rewrite Hc. unfold len.
      pose proof (remove_one_length (x mod 12) (pitch_classes p) Hn Hx). lia.
  - intros Hx. rewrite contains_In in Hx.
    rewrite <- (new_stored pcs) at 2. unfold add_pitch_class.
    apply new_ext_range; [now apply add_range | apply Hw |].
    intros y. rewrite in_app_iff. simpl. intuition (subst; auto).
  - intros Hx. apply Bool.not_true_iff_false in Hx. rewrite contains_In in Hx.
    rewrite <- (new_stored pcs) at 2. unfold remove_pitch_class.
    apply new_ext_range; [now apply remove_range | apply Hw |].
    intros y. rewrite filter_In, negb_true_iff, Z.eqb_neq.
    split; [tauto |]. intros Hy. split; [exact Hy | congruence].
Qed.

Lemma add_remove_effects_witness :
  instance (retrograde (new [0; 4; 7]))
  /\ contains (add_pitch_class (retrograde (new [0; 4; 7])) 14) 14 = true
  /\ contains (remove_pitch_class (retrograde (new [0; 4; 7])) 14) 14 = false
  /\ (contains (retrograde (new [0; 4; 7])) 14 = false ->
      cardinality (add_pitch_class (retrograde (new [0; 4; 7])) 14)
      = cardinality (retrograde (new [0; 4; 7])) + 1)
  /\ (contains (retrograde (new [0; 4; 7])) 14 = true ->
      cardinality (remove_pitch_class (retrograde (new [0; 4; 7])) 14)
      = cardinality (retrograde (new [0; 4; 7])) - 1)
  /\ (contains (new [3; 5]) 14 = true -> add_pitch_class (new [3; 5]) 14 = new [3; 5])
  /\ (contains (new [3; 5]) 14 = false ->
      remove_pitch_class (new [3; 5]) 14 = new [3; 5]).
Proof.
  assert (H : instance (retrograde (new [0; 4; 7])))
    by apply instance_retrograde, instance_new.
  split; [exact H |].
  apply (add_remove_effects (retrograde (new [0; 4; 7])) [3; 5] 14 H).
Defined.

End AddRemove.

(** ** Subsets and supersets *)

Section Combinations.

Lemma combinations_sound {A : Type} (xs : list A) (r : nat) (c : list A) :
  In c (combinations xs r) ->
  List.length c = r /\ incl c xs /\ (NoDup xs -> NoDup c).
Proof.
  revert r c. induction xs as [| x xs IH]; intros [| r] c H; simpl in H.
  - destruct H as [<- | []]. repeat split; [apply incl_nil_l | constructor].
  - contradiction.
  - destruct H as [<- | []]. repeat split; [apply incl_nil_l | constructor].
  - apply in_app_or in H. destruct H as [H | H].
    + apply in_map_iff in H. destruct H as [c' [<- Hc']].
      destruct (IH _ _ Hc') as [Hl [Hi Hn]]. repeat split.
      * simpl. now rewrite Hl.
      * intros y [<- | Hy]; [now left | right; now apply Hi].
      * intros Hnd. inversion Hnd as [| ? ? Hnin Hnd']; subst.
        constructor; [| now apply Hn]. intros Hx. apply Hnin. now apply Hi.
    + destruct (IH _ _ H) as [Hl [Hi Hn]]. repeat split; auto.
      * intros y Hy. right. now apply Hi.
      * intros Hnd. inversion Hnd; subst. now apply Hn.
Qed.

Lemma combinations_cons {A : Type} (x : A) (xs : list A) (r : nat) :
  combinations (x :: xs) (S r)
  = map (cons x) (combinations xs r) ++ combinations xs (S r).
Proof. reflexivity. Qed.

(** Every selection made by a test is one of the combinations. *)
Lemma combinations_filter {A : Type} (f : A -> bool) (xs : list A) :
  In (filter f xs) (combinations xs (List.length (filter f xs))).
Proof.
  induction xs as [| x xs IH]; [now left |].
  cbn [filter]. destruct (f x); cbn [List.length].
  - rewrite combinations_cons. apply in_or_app. left. now apply in_map.
  - destruct (List.length (filter f xs)) eqn:E.
    + apply length_zero_iff_nil in E. rewrite E. now left.
    + rewrite combinations_cons. apply in_or_app. right.
      first [exact IH | rewrite <- E; exact IH].
Qed.

(** The sets built from the [k]-element combinations of a list of
    distinct pitch classes are the constructed sets of cardinality [k]
    within the list. *)
Lemma combinations_new (xs : list Z) (k : Z) (q : PitchClassSet) :
  Forall pitch_class xs -> NoDup xs ->
  (0 <= k /\ In q (map new (combinations xs (Z.to_nat k)))
   <-> (exists l, q = new l)
       /\ (forall x, In x (pitch_classes q) -> In x xs)
       /\ cardinality q = k).
Proof.
  intros Hr Hn. split.
  - intros [Hk H]. apply in_map_iff in H. destruct H as [c [<- Hc]].
    destruct (combinations_sound _ _ _ Hc) as [Hl [Hi Hnc]].
    assert (Hrc : Forall pitch_class c).
    { rewrite Forall_forall in *. intros y Hy. apply Hr, Hi, Hy. }
    repeat split.
    + now exists c.
    + intros x Hx. apply Hi. now apply (new_In_range c x Hrc).
    + destruct (new_distinct c Hrc (Hnc Hn)) as [_ ->]. unfold len. lia.
  - intros [[l ->] [Hsub Hcard]].
    pose proof (new_well_formed l) as [Hrq Hnq Hcq].
    set (c := filter (fun y => mem y (pitch_classes (new l))) xs).
    assert (Hperm : Permutation c (pitch_classes (new l))).
    { apply NoDup_Permutation; auto.
      - now apply NoDup_filter.
      - intros x. unfold c. rewrite filter_In, mem_In. split; [tauto | auto]. }
    assert (Hlen : Z.to_nat k = List.length c).
    { rewrite <- Hcard, Hcq, (Permutation_length Hperm). unfold len. lia. }
    split; [rewrite <- Hcard, Hcq; unfold len; lia |].
    apply in_map_iff. exists c. split.
    + rewrite <- (new_stored l). apply new_ext_range; auto.
      * now apply Forall_filter_keep.
      * intros x. split; apply Permutation_in; [| symmetry]; exact Hperm.
    + rewrite Hlen. apply combinations_filter.
Qed.

End Combinations.

Section Subsets.

Lemma find_subsets_iff (p q : PitchClassSet) (k : Z) :
  instance p ->
  (In q (find_subsets p k)
   <-> (exists l, q = new l) /\ is_subset_of q p = true /\ cardinality q = k).
Proof.
  intros Hp. apply instance_well_formed in Hp. destruct Hp as [Hr Hn Hc].
  rewrite is_subset_of_incl, <- (combinations_new _ k q Hr Hn).
  unfold find_subsets.
  destruct ((k >? len (pitch_classes p)) || (k <? 0)) eqn:G.
  - split; [contradiction |]. intros [Hk H]. exfalso.
    apply in_map_iff in H. destruct H as [c [_ Hc']].
    destruct (combinations_sound _ _ _ Hc') as [Hl [Hi Hnc]].
    pose proof (NoDup_incl_length (Hnc Hn) Hi).
    apply orb_true_iff in G. unfold len in G. lia.
  - apply orb_false_iff in G. split; [intros H; split; [lia | exact H] | tauto].
Qed.

(** X19. [find_subsets(k)] of an instance lists exactly the
    constructed sets of cardinality [k] that are subsets of it; it is
    empty for a negative [k] and for [k] above the cardinality. *)
Theorem find_subsets_spec (p q : PitchClassSet) (k : Z) :
  instance p ->
  (In q (find_subsets p k)
   <-> (exists l, q = new l) /\ is_subset_of q p = true /\ cardinality q = k)
  /\ (k < 0 \/ cardinality p < k -> find_subsets p k = []).
Proof.
  intros Hp. split; [now apply find_subsets_iff |].
  apply instance_well_formed in Hp. destruct Hp as [_ _ Hc].
  intros Hk. unfold find_subsets. rewrite <- Hc.
  replace ((k >? cardinality p) || (k <? 0)) with true; [reflexivity |].
  symmetry. apply orb_true_iff. lia.
Qed.

Lemma find_subsets_spec_witness :
  instance (retrograde (new [0; 4; 7]))
  /\ (In (new [7; 0]) (find_subsets (retrograde (new [0; 4; 7])) 2)
      <-> (exists l, new [7; 0] = new l)
          /\ is_subset_of (new [7; 0]) (retrograde (new [0; 4; 7])) = true
          /\ cardinality (new [7; 0]) = 2)
  /\ (2 < 0 \/ cardinality (retrograde (new [0; 4; 7])) < 2 ->
      find_subsets (retrograde (new [0; 4; 7])) 2 = []).
Proof.
  assert (H : instance (retrograde (new [0; 4; 7])))
    by apply instance_retrograde, instance_new.
  split; [exact H | apply (find_subsets_spec _ (new [7; 0]) 2 H)].
Defined.

Lemma remaining_facts (p : PitchClassSet) :
  let remaining := filter (fun pc => negb (mem pc (pitch_classes p))) (range 12) in
  Forall pitch_class remaining /\ NoDup remaining
  /\ forall x, In x remaining <-> pitch_class x /\ ~ In x (pitch_classes p).
Proof.
  intros remaining. split; [apply complement_range |].
  split; [apply NoDup_filter, range_12_nodup |].
  intros x. unfold remaining.
  now rewrite filter_In, range_12_In, negb_true_iff, mem_not_In.
Qed.

Lemma well_formed_length (p : PitchClassSet) :
  well_formed p -> (List.length (pitch_classes p) <= 12)%nat.
Proof.
  intros [Hr Hn _]. change 12%nat with (List.length (range 12)).
  apply NoDup_incl_length; [exact Hn |].
  intros x Hx. apply range_12_In. rewrite Forall_forall in Hr. now apply Hr.
Qed.

Lemma find_supersets_iff (p q : PitchClassSet) (k : Z) :
  instance p ->
  (In q (find_supersets p k)
   <-> (exists l, q = new l) /\ is_subset_of p q = true /\ cardinality q = k).
Proof.
  intros Hp. apply instance_well_formed in Hp. pose proof Hp as [Hr Hn Hc].
  destruct (remaining_facts p) as [Hrr [Hnr Hinr]].
  set (remaining := filter (fun pc => negb (mem pc (pitch_classes p))) (range 12)) in *.
  assert (Happ : forall c, incl c remaining -> NoDup c ->
                 Forall pitch_class (pitch_classes p ++ c)
                 /\ NoDup (pitch_classes p ++ c)).
  { intros c Hi Hnc. split.
    - apply Forall_app. split; [exact Hr |].
      rewrite Forall_forall in *. intros y Hy. apply Hrr, Hi, Hy.
    - apply NoDup_app; auto. intros a Ha Hac. apply Hi, Hinr in Hac. tauto. }
  rewrite is_subset_of_incl. unfold find_supersets. fold remaining.
  destruct ((k <? len (pitch_classes p)) || (k >? 12)) eqn:G.
  - split; [contradiction |]. intros [[l ->] [Hsub Hcard]]. exfalso.
    pose proof (new_well_formed l) as Hq.
    pose proof (well_formed_length _ Hq) as Hle.
    destruct Hq as [_ Hnq Hcq].
    pose proof (NoDup_incl_length Hn Hsub).
    apply orb_true_iff in G. unfold len in *. lia.
  - apply orb_false_iff in G. destruct G as [G1 G2]. split.
    + intros H. apply in_map_iff in H. destruct H as [c [<- Hc']].
      destruct (combinations_sound _ _ _ Hc') as [Hl [Hi Hnc]].
      destruct (Happ c Hi (Hnc Hnr)) as [Hra Hna].
      destruct (new_distinct _ Hra Hna) as [_ Hcard]. repeat split.
      * now eexists.
      * intros x Hx. apply (new_In_range _ x Hra), in_app_iff. now left.
      * rewrite Hcard. unfold len in *. rewrite length_app, Hl. lia.
    + intros [[l ->] [Hsub Hcard]].
      pose proof (new_well_formed l) as [Hrq Hnq Hcq].
      set (c := filter (fun y => mem y (pitch_classes (new l))) remaining).
      assert (Hi : incl c remaining) by apply incl_filter.
      destruct (Happ c Hi (NoDup_filter _ Hnr)) as [Hra Hna].
      assert (Hperm : Permutation (pitch_classes p ++ c) (pitch_classes (new l))).
      { apply NoDup_Permutation; auto.
        intros x. unfold c. rewrite in_app_iff, filter_In, mem_In, Hinr.
        rewrite Forall_forall in Hrq. split; [intros [H | H]; [auto | tauto] |].
        intros Hx. destruct (in_dec Z.eq_dec x (pitch_classes p)); auto. }
      apply in_map_iff. exists c. split.
      * rewrite <- (new_stored l). apply new_ext_range; auto.
        intros x. split; apply Permutation_in; [| symmetry]; exact Hperm.
      * replace (Z.to_nat (k - len (pitch_classes p))) with (List.length c).
        { apply combinations_filter. }
        pose proof (Permutation_length Hperm) as E. rewrite length_app in E.
        rewrite <- Hcard, Hcq. unfold len. lia.
Qed.

(** X20. [find_supersets(k)] of an instance lists exactly the
    constructed sets of cardinality [k] that contain it; it is empty
    for [k] below the cardinality and for [k] above 12. *)
Theorem find_supersets_spec (p q : PitchClassSet) (k : Z) :
  instance p ->
  (In q (find_supersets p k)
   <-> (exists l, q = new l) /\ is_superset_of q p = true /\ cardinality q = k)
  /\ (k < cardinality p \/ 12 < k -> find_supersets p k = []).
Proof.
  intros Hp. unfold is_superset_of. split; [now apply find_supersets_iff |].
  apply instance_well_formed in Hp. destruct Hp as [_ _ Hc].
  intros Hk. unfold find_supersets. rewrite <- Hc.
  replace ((k <? cardinality p) || (k >? 12)) with true; [reflexivity |].
  symmetry. apply orb_true_iff. lia.
Qed.

Lemma find_supersets_spec_witness :
  instance (new [0; 4; 7])
  /\ (In (new [0; 4; 7; 10]) (find_supersets (new [0; 4; 7]) 4)
      <-> (exists l, new [0; 4; 7; 10] = new l)
          /\ is_superset_of (new [0; 4; 7; 10]) (new [0; 4; 7]) = true
          /\ cardinality (new [0; 4; 7; 10]) = 4)
  /\ (4 < cardinality (new [0; 4; 7]) \/ 12 < 4 ->
      find_supersets (new [0; 4; 7]) 4 = []).
Proof.
  split; [apply instance_new |].
  apply (find_supersets_spec (new [0; 4; 7]) (new [0; 4; 7; 10]) 4).
  apply instance_new.
Defined.

(** X21. For [1 <= k], [generate_all_sets(k)] lists exactly the
    constructed sets of cardinality [k]; for other [k] it is empty,
    the empty set of cardinality 0 included. *)
Theorem generate_all_sets_spec (q : PitchClassSet) (k : Z) :
  In q (generate_all_sets k)
  <-> (exists l, q = new l) /\ cardinality q = k /\ 1 <= k.
Proof.
  pose proof (combinations_new (range 12) k q range_12_pitch_classes range_12_nodup)
    as H.
  unfold generate_all_sets.
  destruct ((k <? 1) || (k >? 12)) eqn:G.
  - split; [contradiction |]. intros [[l ->] [Hcard Hk]]. exfalso.
    pose proof (well_formed_length _ (new_well_formed l)) as Hle.
    destruct (new_well_formed l) as [_ _ Hc].
    apply orb_true_iff in G. unfold len in *. lia.
  - apply orb_false_iff in G. split.
    + intros Hq. assert (Hk : 0 <= k) by lia.
      destruct (proj1 H (conj Hk Hq)) as [Hl [_ Hc]].
      repeat split; auto. lia.
    + intros [Hl [Hc Hk]]. apply H. repeat split; auto.
      destruct Hl as [l ->]. intros x Hx. apply range_12_In.
      eapply well_formed_In; [apply new_well_formed | exact Hx].
Qed.

(** X22. [find_common_subsets] and [find_common_supersets] of a
    non-empty list whose first set is an instance list exactly the
    constructed sets of the given cardinality that are subsets, or
    supersets, of every set of the list; of an empty list they are
    empty. *)
Theorem find_common_spec (first q : PitchClassSet) (others : list PitchClassSet)
    (k : Z) :
  instance first ->
  (In q (find_common_subsets (first :: others) k)
   <-> (exists l, q = new l) /\ cardinality q = k
       /\ forall s, In s (first :: others) -> is_subset_of q s = true)
  /\ (In q (find_common_supersets (first :: others) k)
      <-> (exists l, q = new l) /\ cardinality q = k
          /\ forall s, In s (first :: others) -> is_subset_of s q = true)
  /\ find_common_subsets [] k = []
  /\ find_common_supersets [] k = [].
Proof.
  intros Hp. repeat split; try reflexivity.
  - cbn [find_common_subsets] in H. apply filter_In in H.
    now apply (find_subsets_iff first q k Hp).
  - cbn [find_common_subsets] in H. apply filter_In in H.
    now apply (find_subsets_iff first q k Hp).
  - intros s [<- | Hs].
    + cbn [find_common_subsets] in H. apply filter_In in H.
      now apply (find_subsets_iff first q k Hp).
    + cbn [find_common_subsets] in H. apply filter_In in H.
      destruct H as [_ H]. rewrite forallb_forall in H. now apply H.
  - intros [Hl [Hc Hs]]. cbn [find_common_subsets]. apply filter_In. split.
    + apply (find_subsets_iff first q k Hp). repeat split; auto.
      apply Hs. now left.
    + apply forallb_forall. intros s Hin. apply Hs. now right.
  - cbn [find_common_supersets] in H. apply filter_In in H.
    now apply (find_supersets_iff first q k Hp).
  - cbn [find_common_supersets] in H. apply filter_In in H.
    now apply (find_supersets_iff first q k Hp).
  - intros s [<- | Hs].
    + cbn [find_common_supersets] in H. apply filter_In in H.
      now apply (find_supersets_iff first q k Hp).
    + cbn [find_common_supersets] in H. apply filter_In in H.
      destruct H as [_ H]. rewrite forallb_forall in H. now apply H.
  - intros [Hl [Hc Hs]]. cbn [find_common_supersets]. apply filter_In. split.
    + apply (find_supersets_iff first q k Hp). repeat split; auto.
      apply Hs. now left.
    + apply forallb_forall. intros s Hin. apply Hs. now right.
Qed.

Lemma find_common_spec_witness :
  instance (new [0; 4; 7])
  /\ (In (new [4; 7])
         (find_common_subsets [new [0; 4; 7]; retrograde (new [4; 7; 11])] 2)
      <-> (exists l, new [4; 7] = new l) /\ cardinality (new [4; 7]) = 2
          /\ forall s, In s [new [0; 4; 7]; retrograde (new [4; 7; 11])] ->
                       is_subset_of (new [4; 7]) s = true).
Proof.
  split; [apply instance_new |].
  apply (find_common_spec (new [0; 4; 7]) (new [4; 7])
           [retrograde (new [4; 7; 11])] 2).
  apply instance_new.
Defined.

End Subsets.

(** ** Similarity relations *)

Section Similarity.

Lemma interval_vector_pairs (p : PitchClassSet) :
  well_formed p ->
  exists v, interval_vector p = Ok v
    /\ 2 * sum v = cardinality p * (cardinality p - 1)
    /\ 0 <= cardinality p.
Proof.
  intros [Hr _ Hc].
  destruct (interval_outer_sum (pitch_classes p) (repeat 0 6%nat) Hr eq_refl)
    as [v [E [_ S]]].
  exists v. rewrite interval_vector_loops, Hc. repeat split; auto.
  unfold len. lia.
Qed.

Lemma few_elements_zero_vector (p : PitchClassSet) :
  well_formed p -> cardinality p <= 1 ->
  interval_vector p = Ok [0; 0; 0; 0; 0; 0].
Proof.
  intros [_ _ Hc] Hk. unfold interval_vector. rewrite <- Hc.
  destruct (Z.ltb_spec (cardinality p) 2); [reflexivity | lia].
Qed.

(** X23. For two instances [similarity_relation] returns its four
    flags, and equal interval vectors force equal cardinalities except
    for an empty set against a singleton: [R] implies [R0] or [R2],
    [R2] holds exactly when one set is empty and the other has one
    element, and [R1] only between two sets of six elements. *)
Theorem similarity_relation_cardinalities (p q : PitchClassSet) :
  instance p -> instance q ->
  exists s, similarity_relation p q = Ok s
    /\ (R s = true -> R0 s = true \/ R2 s = true)
    /\ (R2 s = true <-> cardinality p + cardinality q = 1)
    /\ (R1 s = true -> cardinality p = 6 /\ cardinality q = 6).
Proof.
  intros Hp Hq. apply instance_well_formed in Hp, Hq.
  destruct (interval_vector_pairs p Hp) as [v [Ev [Sv Kp]]].
  destruct (interval_vector_pairs q Hq) as [w [Ew [Sw Kq]]].
  unfold similarity_relation. rewrite Ev, Ew. cbn [bind].
  eexists. split; [reflexivity |]. cbn [R R0 R1 R2].
  assert (Hsame : list_eqb v w = true ->
                  cardinality p = cardinality q
                  \/ cardinality p + cardinality q = 1).
  { intros E. apply list_eqb_eq in E. subst w. nia. }
  repeat split.
  - intros E. rewrite E. cbn [andb].
    destruct (Hsame E) as [H | H]; [left | right]; lia.
  - intros E. apply andb_true_iff in E. destruct E as [E1 E2].
    destruct (Hsame E1); lia.
  - intros H. apply andb_true_iff. split; [| lia].
    rewrite (few_elements_zero_vector p Hp) in Ev by lia.
    rewrite (few_elements_zero_vector q Hq) in Ew by lia.
    injection Ev as <-. injection Ew as <-. reflexivity.
  - apply andb_true_iff in H. destruct H as [E1 E2]. destruct (Hsame E1); lia.
  - apply andb_true_iff in H. destruct H as [E1 E2]. destruct (Hsame E1); lia.
Qed.

Lemma similarity_relation_cardinalities_witness :
  instance (new []) /\ instance (retrograde (new [3]))
  /\ exists s, similarity_relation (new []) (retrograde (new [3])) = Ok s
    /\ (R s = true -> R0 s = true \/ R2 s = true)
    /\ (R2 s = true
        <-> cardinality (new []) + cardinality (retrograde (new [3])) = 1)
    /\ (R1 s = true
        -> cardinality (new []) = 6 /\ cardinality (retrograde (new [3])) = 6).
Proof.
  assert (H1 : instance (new [])) by apply instance_new.
  assert (H2 : instance (retrograde (new [3])))
    by apply instance_retrograde, instance_new.
  split; [exact H1 |]. split; [exact H2 |].
  apply (similarity_relation_cardinalities _ _ H1 H2).
Defined.

End Similarity.

(** ** Prime form *)

Section PrimeFormOrder.

Lemma list_ltb_asym (xs ys : list Z) :
  list_ltb xs ys = true -> list_ltb ys xs = false.
Proof.
  revert ys. induction xs as [| x xs IH]; intros [| y ys]; simpl;
    try discriminate; auto.
  destruct (Z.eqb_spec x y) as [-> | Hne].
  - rewrite Z.eqb_refl. apply IH.
  - destruct (Z.eqb_spec y x); [congruence | lia].
Qed.

Lemma list_ltb_total (xs ys : list Z) :
  list_ltb xs ys = false -> list_ltb ys xs = false -> xs = ys.
Proof.
  revert ys. induction xs as [| x xs IH]; intros [| y ys]; simpl;
    try discriminate; auto.
  destruct (Z.eqb_spec x y) as [-> | Hne].
  - rewrite Z.eqb_refl. intros H1 H2. f_equal. now apply IH.
  - destruct (Z.eqb_spec y x); [congruence | lia].
Qed.

Lemma smaller_comm (xs ys : list Z) : smaller xs ys = smaller ys xs.
Proof.
  unfold smaller.
  destruct (list_ltb ys xs) eqn:E1, (list_ltb xs ys) eqn:E2; auto.
  - apply list_ltb_asym in E1. congruence.
  - now apply list_ltb_total.
Qed.

(** The constructed set with the elements of an instance. *)
Lemma new_sorted_stored (p : PitchClassSet) :
  well_formed p ->
  pitch_classes (new (pitch_classes p)) = sorted (pitch_classes p).
Proof. intros [Hr Hn _]. now apply new_distinct. Qed.

Lemma inversion_of_stored (p : PitchClassSet) (n : Z) :
  well_formed p -> inversion (new (pitch_classes p)) n = inversion p n.
Proof.
  intros Hp. unfold inversion. rewrite (new_sorted_stored p Hp).
  apply new_ext. intros x. rewrite !map_map, !in_map_iff.
  split; intros [y [E Hy]]; exists y; split; auto;
    [apply (Permutation_in _ (Permutation_sym (sorted_perm _))) in Hy
    | apply (Permutation_in _ (sorted_perm _)) in Hy]; exact Hy.
Qed.

Lemma nonempty_cardinality (p : PitchClassSet) :
  well_formed p -> (pitch_classes p <> [] <-> cardinality p <> 0).
Proof.
  intros [_ _ Hc]. rewrite Hc. unfold len.
  destruct (pitch_classes p); simpl; split; intros H; try congruence; lia.
Qed.

(** X24. [prime_form] is idempotent on every instance, and the
    inversion around 0 has the same prime form as the instance. *)
Theorem prime_form_idempotent (p : PitchClassSet) (l : list Z) :
  instance p -> prime_form p = Ok l ->
  prime_form (new l) = Ok l /\ prime_form (inversion p 0) = Ok l.
Proof.
  intros Hp E. apply instance_well_formed in Hp.
  destruct (pitch_classes p) as [| x xs] eqn:Epcs.
  - unfold prime_form in E. rewrite Epcs in E. injection E as <-.
    unfold inversion. rewrite Epcs. split; reflexivity.
  - assert (Hne : pitch_classes p <> []) by (rewrite Epcs; discriminate).
    set (s := sorted (pitch_classes p)) in *.
    set (s' := pitch_classes (inversion p 0)) in *.
    assert (Hq : well_formed (inversion p 0)) by apply new_well_formed.
    assert (Hp' : well_formed (new (pitch_classes p))) by apply new_well_formed.
    assert (Hqne : pitch_classes (inversion p 0) <> []).
    { apply nonempty_cardinality; auto.
      unfold inversion.
      rewrite (new_map_cardinality (fun pc => (0 - pc) mod 12)); auto.
      - now apply nonempty_cardinality.
      - intros a. apply invert_pitch_class.
      - intros a b. apply invert_interval_class. }
    assert (Hback : pitch_classes (inversion (inversion p 0) 0) = s).
    { rewrite <- (inversion_of_stored p 0 Hp), inversion_twice.
      now apply new_sorted_stored. }
    assert (Es' : sorted s' = s')
      by (apply sorted_fixed; unfold s', inversion; apply post_init_sorted).
    assert (Einv : prime_form (inversion p 0) = Ok (smaller s' s)).
    { rewrite prime_form_two_candidates by auto. fold s'. now rewrite Es', Hback. }
    rewrite prime_form_two_candidates in E by auto. fold s s' in E.
    injection E as <-. split; [| now rewrite Einv, smaller_comm].
    unfold smaller at 1 2. destruct (list_ltb s' s) eqn:Elt.
    + unfold s', inversion at 1. rewrite new_stored. fold (inversion p 0).
      rewrite Einv. unfold smaller. now rewrite (list_ltb_asym _ _ Elt).
    + assert (Enew : new s = new (pitch_classes p)).
      { unfold s. apply new_ext. intros y. rewrite !in_map_iff.
        split; intros [z [Ez Hz]]; exists z; split; auto;
          [apply (Permutation_in _ (Permutation_sym (sorted_perm _))) in Hz
          | apply (Permutation_in _ (sorted_perm _)) in Hz]; exact Hz. }
      rewrite Enew, prime_form_two_candidates.
      * rewrite (new_sorted_stored p Hp), (inversion_of_stored p 0 Hp).
        fold s s'. rewrite (sorted_fixed s) by apply sorted_le.
        unfold smaller. now rewrite Elt.
      * exact Hp'.
      * rewrite (new_sorted_stored p Hp). intros H.
        apply (f_equal (@List.length Z)) in H.
        rewrite <- (Permutation_length (sorted_perm _)), Epcs in H. discriminate.
Qed.

Lemma prime_form_idempotent_witness :
  instance (retrograde (new [2; 5; 9]))
  /\ prime_form (retrograde (new [2; 5; 9])) = Ok [2; 5; 9]
  /\ prime_form (new [2; 5; 9]) = Ok [2; 5; 9]
  /\ prime_form (inversion (retrograde (new [2; 5; 9])) 0) = Ok [2; 5; 9].
Proof.
  assert (H : instance (retrograde (new [2; 5; 9])))
    by apply instance_retrograde, instance_new.
  assert (E : prime_form (retrograde (new [2; 5; 9])) = Ok [2; 5; 9])
    by (vm_compute; reflexivity).
  split; [exact H |]. split; [exact E |].
  apply (prime_form_idempotent _ _ H E).
Defined.

End PrimeFormOrder.

(** ** Queries on the classification table *)

Section TableQueries.

Lemma find_label_In (items : list (list Z * string)) (label : string)
    (q : PitchClassSet) :
  find_label items label = Some q ->
  exists prime, In (prime, label) items /\ q = new prime.
Proof.
  induction items as [| [k l] items IH]; simpl; [discriminate |].
  destruct (String.eqb_spec l label) as [-> | _].
  - intros [= <-]. exists k. split; [now left | reflexivity].
  - intros H. destruct (IH H) as [prime [Hin E]]. exists prime. split; auto.
Qed.

Lemma dict_get_In (items : list (list Z * string)) (key : list Z)
    (label : string) :
  dict_get items key = Some label -> In (key, label) items.
Proof.
  induction items as [| [k l] items IH]; simpl; [discriminate |].
  destruct (list_eqb k key) eqn:E.
  - apply list_eqb_eq in E. subst k. intros [= ->]. now left.
  - intros H. right. now apply IH.
Qed.

Lemma get_set_from_forte_number_In (label : string) (q : PitchClassSet) :
  get_set_from_forte_number label = Some q ->
  exists c items prime,
    table_get FORTE_TABLE c = Some items /\ In (prime, label) items /\ q = new prime.
Proof.
  unfold get_set_from_forte_number.
  destruct (split "-" label) as [| cs [| ns [| ? ?]]]; try discriminate.
  destruct (int cs) as [c |]; [| discriminate].
  destruct (int ns); [| discriminate].
  destruct (table_get FORTE_TABLE c) as [items |] eqn:E; [| discriminate].
  intros H. destruct (find_label_In _ _ _ H) as [prime [Hin ->]].
  now exists c, items, prime.
Qed.

(** Every key of the table is a sorted list of distinct pitch classes
    of the length its cardinality announces. *)
Lemma table_keys_normal :
  forallb (fun ct : Z * list (list Z * string) =>
    forallb (fun e : list Z * string =>
      list_eqb (pitch_classes (new (fst e))) (fst e)
      && (cardinality (new (fst e)) =? fst ct))
      (snd ct)) FORTE_TABLE = true.
Proof. vm_compute. reflexivity. Qed.

(** Every label but ["4-29"] is given back by [get_forte_number] on
    the set the label resolves to. *)
Lemma table_labels_round_trip :
  forallb (fun ct : Z * list (list Z * string) =>
    forallb (fun e : list Z * string =>
      String.eqb (snd e) "4-29"
      || match get_set_from_forte_number (snd e) with
         | Some q =>
             match get_forte_number q with
             | Ok (Some label) => String.eqb label (snd e)
             | _ => false
             end
         | None => false
         end)
      (snd ct)) FORTE_TABLE = true.
Proof. vm_compute. reflexivity. Qed.

Lemma table_entry_normal (c : Z) (items : list (list Z * string))
    (prime : list Z) (label : string) :
  table_get FORTE_TABLE c = Some items -> In (prime, label) items ->
  pitch_classes (new prime) = prime /\ cardinality (new prime) = c.
Proof.
  intros Hget Hin. apply table_get_In in Hget.
  pose proof table_keys_normal as H.
  rewrite forallb_forall in H. specialize (H _ Hget). cbn [snd fst] in H.
  rewrite forallb_forall in H. specialize (H _ Hin). cbn [fst] in H.
  apply andb_true_iff in H. destruct H as [H1 H2].
  now rewrite list_eqb_eq in H1; rewrite Z.eqb_eq in H2.
Qed.

(** X25. A set found by [get_set_from_forte_number] stores a key of
    the table that carries the label, has the cardinality of the table
    it was found in, and, unless the label is ["4-29"],
    [get_forte_number] gives the label back. *)
Theorem get_set_from_forte_number_sound (label : string) (q : PitchClassSet) :
  get_set_from_forte_number label = Some q ->
  (exists c items,
      table_get FORTE_TABLE c = Some items
      /\ In (pitch_classes q, label) items /\ cardinality q = c)
  /\ (label <> "4-29" -> get_forte_number q = Ok (Some label)).
Proof.
  intros H.
  destruct (get_set_from_forte_number_In _ _ H) as [c [items [prime [Hget [Hin ->]]]]].
  destruct (table_entry_normal _ _ _ _ Hget Hin) as [E1 E2]. split.
  - exists c, items. rewrite E1. auto.
  - intros Hne. pose proof table_labels_round_trip as T.
    apply table_get_In in Hget.
    rewrite forallb_forall in T. specialize (T _ Hget). cbn [snd] in T.
    rewrite forallb_forall in T. specialize (T _ Hin). cbn [snd] in T.
    apply orb_true_iff in T. destruct T as [T | T].
    + apply String.eqb_eq in T. contradiction.
    + rewrite H in T. destruct (get_forte_number (new prime)) as [[l |] | e];
        try discriminate.
      apply String.eqb_eq in T. now subst l.
Qed.

Lemma get_set_from_forte_number_sound_witness :
  get_set_from_forte_number "6-35" = Some (new [0; 1; 3; 6; 7; 8])
  /\ (exists c items,
         table_get FORTE_TABLE c = Some items
         /\ In (pitch_classes (new [0; 1; 3; 6; 7; 8]), "6-35") items
         /\ cardinality (new [0; 1; 3; 6; 7; 8]) = c)
  /\ ("6-35" <> "4-29" ->
      get_forte_number (new [0; 1; 3; 6; 7; 8]) = Ok (Some "6-35")).
Proof.
  assert (H : get_set_from_forte_number "6-35" = Some (new [0; 1; 3; 6; 7; 8]))
    by reflexivity.
  split; [exact H | apply (get_set_from_forte_number_sound _ _ H)].
Defined.

Lemma find_label_complete (items : list (list Z * string)) (label : string)
    (key : list Z) :
  In (key, label) items -> exists q, find_label items label = Some q.
Proof.
  induction items as [| [k l] items IH]; [contradiction |].
  intros Hin. simpl. destruct (String.eqb_spec l label) as [-> | Hne].
  - now eexists.
  - destruct Hin as [[= _ ->] | Hin]; [contradiction | now apply IH].
Qed.

(** X26. A label returned by [get_forte_number] always resolves: the
    set [get_set_from_forte_number] builds from it has the cardinality
    of the classified set. *)
Theorem get_forte_number_resolves (p : PitchClassSet) (label : string) :
  get_forte_number p = Ok (Some label) ->
  exists q, get_set_from_forte_number label = Some q
    /\ cardinality q = cardinality p.
Proof.
  unfold get_forte_number, len_pcs.
  destruct (table_get FORTE_TABLE (cardinality p)) as [items |] eqn:Hget;
    [| discriminate].
  destruct (prime_form_total p) as [prime ->]. cbn [bind]. intros [= Hd].
  apply dict_get_In in Hd.
  pose proof table_labels_resolve as T. pose proof (table_get_In _ _ _ Hget) as Hin.
  rewrite forallb_forall in T. specialize (T _ Hin). cbn [snd] in T.
  rewrite forallb_forall in T. specialize (T _ Hd). cbn [snd] in T.
  apply same_result_eq in T. rewrite T.
  destruct (find_label_complete _ _ _ Hd) as [q F]. rewrite F.
  exists q. split; [reflexivity |].
  destruct (find_label_In _ _ _ F) as [k [Hk ->]].
  now destruct (table_entry_normal _ _ _ _ Hget Hk).
Qed.

Lemma get_forte_number_resolves_witness :
  get_forte_number (retrograde (new [0; 4; 7])) = Ok (Some "3-11")
  /\ exists q, get_set_from_forte_number "3-11" = Some q
       /\ cardinality q = cardinality (retrograde (new [0; 4; 7])).
Proof.
  assert (H : get_forte_number (retrograde (new [0; 4; 7])) = Ok (Some "3-11"))
    by (vm_compute; reflexivity).
  split; [exact H | apply (get_forte_number_resolves _ _ H)].
Defined.

Lemma prime_form_length (p : PitchClassSet) (l : list Z) :
  well_formed p -> prime_form p = Ok l -> len l = cardinality p.
Proof.
  intros Hp E. pose proof Hp as [Hr Hn Hc].
  assert (Hcases : pitch_classes p = [] \/ pitch_classes p <> [])
    by (destruct (pitch_classes p); [left | right]; congruence).
  destruct Hcases as [E0 | Hne].
  - unfold prime_form in E. rewrite E0 in E. injection E as <-.
    now rewrite Hc, E0.
  - rewrite prime_form_two_candidates in E by auto.
    injection E as <-. unfold smaller.
    destruct (list_ltb _ _).
    + transitivity (cardinality (inversion p 0)).
      { symmetry. apply wf_card. unfold inversion. apply new_well_formed. }
      apply (new_map_cardinality (fun pc => (0 - pc) mod 12)); auto.
      * intros a. apply invert_pitch_class.
      * intros a b. apply invert_interval_class.
    + rewrite Hc. unfold len. f_equal. symmetry.
      apply Permutation_length, sorted_perm.
Qed.

(** The table built into [PitchClassSet.forte_number] is part of the
    cardinality-3 table. *)
Lemma forte_map_in_table :
  forallb (fun e : list Z * string =>
    match table_get FORTE_TABLE 3 with
    | Some items =>
        match dict_get items (fst e) with
        | Some label => String.eqb label (snd e)
        | None => false
        end
    | None => false
    end && (len (fst e) =? 3)) forte_map = true.
Proof. vm_compute. reflexivity. Qed.

(** X27. Whenever the method [forte_number] built into the set type
    finds a label for an instance, [get_forte_number] finds the same
    label, and the instance has three elements. *)
Theorem forte_number_agrees (p : PitchClassSet) (label : string) :
  instance p -> forte_number p = Ok (Some label) ->
  get_forte_number p = Ok (Some label) /\ cardinality p = 3.
Proof.
  intros Hp. apply instance_well_formed in Hp.
  unfold forte_number, get_forte_number, len_pcs.
  destruct (prime_form p) as [prime | e] eqn:E; cbn [bind]; [| discriminate].
  intros Hd0.
  assert (Hd : dict_get forte_map prime = Some label) by congruence.
  clear Hd0. apply dict_get_In in Hd.
  pose proof forte_map_in_table as T.
  rewrite forallb_forall in T. specialize (T _ Hd). cbn [fst snd] in T.
  apply andb_true_iff in T. destruct T as [T1 T2]. apply Z.eqb_eq in T2.
  rewrite <- (prime_form_length p prime Hp E), T2.
  destruct (table_get FORTE_TABLE 3) as [items |]; [| discriminate].
  destruct (dict_get items prime) as [l' |]; [| discriminate].
  apply String.eqb_eq in T1. subst l'. auto.
Qed.

Lemma forte_number_agrees_witness :
  instance (retrograde (new [0; 3; 7]))
  /\ forte_number (retrograde (new [0; 3; 7])) = Ok (Some "3-11")
  /\ get_forte_number (retrograde (new [0; 3; 7])) = Ok (Some "3-11")
  /\ cardinality (retrograde (new [0; 3; 7])) = 3.
Proof.
  assert (H : instance (retrograde (new [0; 3; 7])))
    by apply instance_retrograde, instance_new.
  assert (E : forte_number (retrograde (new [0; 3; 7])) = Ok (Some "3-11"))
    by (vm_compute; reflexivity).
  split; [exact H |]. split; [exact E |].
  apply (forte_number_agrees _ _ H E).
Defined.

Lemma similar_scan_spec (items : list (list Z * string)) (forte_number : string)
    (target_iv : list Z) (similar_sets : list string) :
  exists found,
    similar_scan items forte_number target_iv similar_sets = Ok found
    /\ forall l, In l found ->
         In l similar_sets
         \/ (l <> forte_number
             /\ exists prime, In (prime, l) items
                  /\ interval_vector (new prime) = Ok target_iv).
Proof.
  revert similar_sets. induction items as [| [prime l] items IH]; intros acc.
  - exists acc. split; [reflexivity | auto].
  - cbn [similar_scan].
    destruct (interval_vector_total (new prime) (new_well_formed prime)) as [iv [E _]].
    rewrite E. cbn [bind].
    destruct (list_eqb iv target_iv && negb (l =? forte_number)%string) eqn:C.
    + apply andb_true_iff in C. destruct C as [C1 C2].
      apply list_eqb_eq in C1. apply negb_true_iff, String.eqb_neq in C2. subst iv.
      destruct (IH (acc ++ [l])) as [found [F H]]. exists found. split; [exact F |].
      intros l' Hl'. destruct (H l' Hl') as [Hin | [Hne [k [Hk Hiv]]]].
      * apply in_app_or in Hin. destruct Hin as [Hin | [<- | []]]; [now left |].
        right. split; [exact C2 |]. exists prime. split; [now left | exact E].
      * right. split; [exact Hne |]. exists k. split; [now right | exact Hiv].
    + destruct (IH acc) as [found [F H]]. exists found. split; [exact F |].
      intros l' Hl'. destruct (H l' Hl') as [Hin | [Hne [k [Hk Hiv]]]]; [now left |].
      right. split; [exact Hne |]. exists k. split; [now right | exact Hiv].
Qed.

Lemma similar_tables_spec (tables : list (Z * list (list Z * string)))
    (forte_number : string) (target_iv : list Z) (similar_sets : list string) :
  exists found,
    similar_tables tables forte_number target_iv similar_sets = Ok found
    /\ forall l, In l found ->
         In l similar_sets
         \/ (l <> forte_number
             /\ exists c items prime,
                  In (c, items) tables /\ In (prime, l) items
                  /\ interval_vector (new prime) = Ok target_iv).
Proof.
  revert similar_sets. induction tables as [| [c items] tables IH]; intros acc.
  - exists acc. split; [reflexivity | auto].
  - cbn [similar_tables].
    destruct (similar_scan_spec items forte_number target_iv acc) as [mid [E Hmid]].
    rewrite E. cbn [bind].
    destruct (IH mid) as [found [F H]]. exists found. split; [exact F |].
    intros l Hl. destruct (H l Hl) as [Hin | [Hne [c' [it [k [H1 [H2 H3]]]]]]].
    + destruct (Hmid l Hin) as [Hacc | [Hne [k [Hk Hiv]]]]; [now left |].
      right. split; [exact Hne |]. exists c, items, k. repeat split; auto. now left.
    + right. split; [exact Hne |]. exists c', it, k. repeat split; auto. now right.
Qed.

(** X28. [find_similar_sets] never raises and never lists the label
    it was asked about; for a label that does not resolve it is empty,
    and every label it lists is carried by a key of the table whose
    interval vector is that of the set the input resolves to. *)
Theorem find_similar_sets_spec (forte_number : string) :
  exists found, find_similar_sets forte_number = Ok found
    /\ ~ In forte_number found
    /\ (get_set_from_forte_number forte_number = None -> found = [])
    /\ (forall target l,
          get_set_from_forte_number forte_number = Some target -> In l found ->
          exists c items prime,
            In (c, items) FORTE_TABLE /\ In (prime, l) items
            /\ interval_vector (new prime) = interval_vector target).
Proof.
  unfold find_similar_sets.
  destruct (get_set_from_forte_number forte_number) as [target |] eqn:G.
  - destruct (get_set_from_forte_number_In _ _ G) as [c [items [prime [_ [_ ->]]]]].
    destruct (interval_vector_total (new prime) (new_well_formed prime)) as [tiv [E _]].
    rewrite E. cbn [bind].
    destruct (similar_tables_spec FORTE_TABLE forte_number tiv []) as [found [F H]].
    exists found. split; [exact F |]. repeat split.
    + intros Hin. destruct (H _ Hin) as [[] | [Hne _]]. now apply Hne.
    + discriminate.
    + intros target l [= <-] Hl.
      destruct (H _ Hl) as [[] | [_ [c' [it [k [H1 [H2 H3]]]]]]].
      exists c', it, k. rewrite E. auto.
  - exists []. repeat split; auto. discriminate.
Qed.

Lemma find_similar_sets_spec_witness :
  get_set_from_forte_number "4-9" = Some (new [0; 1; 3; 7])
  /\ In "4-11" ["4-11"]
  /\ exists c items prime,
       In (c, items) FORTE_TABLE /\ In (prime, "4-11") items
       /\ interval_vector (new prime) = interval_vector (new [0; 1; 3; 7]).
Proof.
  assert (G : get_set_from_forte_number "4-9" = Some (new [0; 1; 3; 7]))
    by reflexivity.
  assert (Hin : In "4-11" ["4-11"]) by (now left).
  split; [exact G |]. split; [exact Hin |].
  destruct (find_similar_sets_spec "4-9") as [found [F [_ [_ H]]]].
  assert (E : found = ["4-11"]) by (vm_compute in F; now injection F).
  subst found. exact (H _ _ G Hin).
Defined.

End TableQueries.

(** ** [set_analysis.py]: generated families *)

Section Generators.

(** Constructed sets are determined by their stored lists. *)
Lemma new_stored_inj (xs ys : list Z) :
  pitch_classes (new xs) = pitch_classes (new ys) -> new xs = new ys.
Proof. unfold new. cbn [pitch_classes]. now intros ->. Qed.

Lemma existsb_list_eqb (t : list Z) (seen : list (list Z)) :
  existsb (list_eqb t) seen = true <-> In t seen.
Proof.
  rewrite existsb_exists. split.
  - intros [u [Hu E]]. apply list_eqb_eq in E. now subst.
  - intros H. exists t. split; [exact H | now apply list_eqb_eq].
Qed.

Lemma unique_loop_spec (related : list PitchClassSet) (seen : list (list Z))
    (acc : list PitchClassSet) :
  (forall t, In t seen <-> In t (map pitch_classes acc)) ->
  NoDup (map pitch_classes acc) ->
  NoDup (map pitch_classes (unique_loop related seen acc))
  /\ (forall q, In q (unique_loop related seen acc) -> In q acc \/ In q related)
  /\ (forall q, In q acc -> In q (unique_loop related seen acc))
  /\ (forall q, In q related ->
        In (pitch_classes q) (map pitch_classes (unique_loop related seen acc))).
Proof.
  revert seen acc. induction related as [| pcs rest IH]; intros seen acc Hseen Hnd.
  - cbn [unique_loop]. repeat split; auto. intros q [].
  - cbn [unique_loop].
    destruct (existsb (list_eqb (pitch_classes pcs)) seen) eqn:E.
    + destruct (IH seen acc Hseen Hnd) as [H1 [H2 [H3 H4]]]. repeat split; auto.
      * intros q Hq. destruct (H2 q Hq); [now left | right; now right].
      * intros q [<- | Hq]; [| now apply H4].
        apply existsb_list_eqb, Hseen, in_map_iff in E.
        destruct E as [q' [<- Hq']]. apply in_map. now apply H3.
    + assert (Hnew : ~ In (pitch_classes pcs) (map pitch_classes acc)).
      { intros H. apply Hseen, existsb_list_eqb in H. congruence. }
      destruct (IH (pitch_classes pcs :: seen) (acc ++ [pcs])) as [H1 [H2 [H3 H4]]].
      * intros t. rewrite map_app, in_app_iff. simpl. rewrite Hseen. tauto.
      * rewrite map_app. apply NoDup_app; auto.
        -- constructor; [intros [] | constructor].
        -- intros a Ha [<- | []]. contradiction.
      * repeat split; auto.
        -- intros q Hq. destruct (H2 q Hq) as [Hin | Hin]; [| right; now right].
           apply in_app_or in Hin. destruct Hin as [Hin | [<- | []]];
             [now left | right; now left].
        -- intros q Hq. apply H3, in_or_app. now left.
        -- intros q [<- | Hq]; [| now apply H4].
           apply in_map, H3, in_or_app. right. now left.
Qed.

Lemma range_12_mod (n : Z) : In (n mod 12) (range 12).
Proof. apply range_12_In. unfold pitch_class. apply Z.mod_pos_bound. lia. Qed.

(** X29. For a label that resolves to [base],
    [generate_sets_by_forte_number] lists transpositions and
    inversions of [base] only, lists the transposition by [n] and the
    inversion around [n] for every integer [n], and lists no stored
    sequence twice; for a label that does not resolve it is empty. *)
Theorem generate_sets_by_forte_number_spec (forte_number : string) :
  (get_set_from_forte_number forte_number = None ->
   generate_sets_by_forte_number forte_number = [])
  /\ (forall base, get_set_from_forte_number forte_number = Some base ->
      NoDup (map pitch_classes (generate_sets_by_forte_number forte_number))
      /\ (forall q, In q (generate_sets_by_forte_number forte_number) ->
            exists n, 0 <= n < 12
              /\ (q = transposition base n \/ q = inversion base n))
      /\ (forall n,
            In (transposition base n) (generate_sets_by_forte_number forte_number)
            /\ In (inversion base n) (generate_sets_by_forte_number forte_number))).
Proof.
  unfold generate_sets_by_forte_number. split; [now intros -> |].
  intros base ->.
  set (related := map (transposition base) (range 12)
                  ++ map (inversion base) (range 12)).
  destruct (unique_loop_spec related [] []) as [H1 [H2 [_ H4]]];
    [simpl; tauto | constructor |].
  assert (Hrel : forall q, In q related ->
            exists n, 0 <= n < 12
              /\ (q = transposition base n \/ q = inversion base n)).
  { intros q Hq. apply in_app_or in Hq.
    destruct Hq as [Hq | Hq]; apply in_map_iff in Hq;
      destruct Hq as [n [<- Hn]]; apply range_12_In in Hn; exists n; auto. }
  assert (Hfound : forall q, In q related -> (exists l, q = new l) ->
            In q (unique_loop related [] [])).
  { intros q Hq [l ->]. apply H4, in_map_iff in Hq.
    destruct Hq as [q' [E Hq']].
    destruct (H2 q' Hq') as [[] | Hin].
    destruct (Hrel q' Hin) as [n [_ [-> | ->]]];
      unfold transposition, inversion in E |- *;
      apply new_stored_inj in E; now rewrite <- E. }
  repeat split; auto.
  - intros q Hq. destruct (H2 q Hq) as [[] | Hin]. now apply Hrel.
  - replace (transposition base n) with (transposition base (n mod 12))
      by (unfold transposition; apply new_map_congr; mod12).
    apply Hfound; [| unfold transposition; now eexists].
    apply in_or_app. left. apply in_map, range_12_mod.
  - replace (inversion base n) with (inversion base (n mod 12))
      by (unfold inversion; apply new_map_congr; mod12).
    apply Hfound; [| unfold inversion; now eexists].
    apply in_or_app. right. apply in_map, range_12_mod.
Qed.

Lemma generate_sets_by_forte_number_spec_witness :
  get_set_from_forte_number "3-12" = Some (new [0; 4; 8])
  /\ NoDup (map pitch_classes (generate_sets_by_forte_number "3-12"))
  /\ In (transposition (new [0; 4; 8]) (-7)) (generate_sets_by_forte_number "3-12").
Proof.
  assert (G : get_set_from_forte_number "3-12" = Some (new [0; 4; 8]))
    by reflexivity.
  split; [exact G |].
  destruct (proj2 (generate_sets_by_forte_number_spec "3-12") _ G) as [H1 [_ H3]].
  split; [exact H1 | exact (proj1 (H3 (-7)))].
Defined.

(** X30. For [1 <= k <= 11] the test of [generate_aggregate_sets]
    rejects nothing: the result is every set of the table of
    cardinality [k]; for any other [k], 12 included, it is empty. *)
Theorem generate_aggregate_sets_all (k : Z) :
  generate_aggregate_sets k =
  if (1 <=? k) && (k <=? 11) then map fst (get_all_sets_by_cardinality k) else [].
Proof.
  unfold generate_aggregate_sets.
  destruct (Z.ltb_spec k 1), (Z.gtb_spec k 11), (Z.leb_spec 1 k), (Z.leb_spec k 11);
    try lia; try reflexivity.
  cbn [orb andb]. f_equal. apply forallb_filter_id, forallb_forall.
  intros [pcs label] Hin. cbn [fst].
  unfold get_all_sets_by_cardinality in Hin.
  destruct (table_get FORTE_TABLE k) as [items |]; [| contradiction].
  apply in_map_iff in Hin. destruct Hin as [[key lab] [[= <- _] _]]. cbn [fst].
  rewrite (union_complement _ (new_well_formed key)). reflexivity.
Qed.

End Generators.
